(** * Index selection of the SQL planner (sql/select.go)

    A shallow embedding of [selectIndex] and of the functions it is built
    from: the range algebra on [qvalueInfo] ([intersect], [union]), the
    predicate analyzer ([analyzeExpr], [analyzeComparisonExpr]), the index
    candidate evaluator ([analyzeRanges], [makeStartInfo], [makeEndInfo],
    [isCoveringIndex]), the key builder ([makeStartKey], [makeEndKey]) and
    the selector itself.

    Go values are modelled as follows.
    - [proto.Key] and [[]byte] are [list byte]; [bytes.Compare] is the
      lexicographic comparison on unsigned bytes, returning -1, 0 or +1.
    - A [parser.Datum] interface value is an [option Datum]: [None] is the
      nil interface.  The datums themselves are opaque, as the planner only
      passes them to the encoder.
    - [panic] is the [Panic] result of the [result] monad; a function that
      can panic returns [result A].
    - A Go map is a stdpp [gmap]; the pointers stored in a [qvalueRangeMap]
      are never shared between two maps, so the ranges are stored by value.
    - [*IndexDescriptor] values are references into the table descriptor
      ([IndexRef]), so that the pointer comparison
      [v.index == &v.desc.PrimaryIndex] is a comparison of references.
    - The [float64] cost is the exact rational it denotes ([Q]); IEEE
      rounding of the one quotient the cost model computes is not modelled.
    - Functions of other packages and files (the table-key encoder, the
      constant evaluator, [convertDatum], [parser.WalkExpr], the key prefix,
      [Key.Next], [Key.PrefixEnd], [sort.Sort]) are fields of the class
      [Collaborators]. *)

From Stdlib Require Import ZArith QArith Permutation Sorted Lia.
From Stdlib Require Import Init.Byte Strings.Byte.
From stdpp Require Import base option list strings gmap.
From Equations Require Import Equations.

Local Open Scope Z_scope.

(** ** Results and panics *)

Module parser.

(** [parser.ComparisonOp]; [EQ] is the zero value of the type. *)
Inductive ComparisonOp :=
| EQ | LT | GT | LE | GE | NE | In | NotIn | Like | NotLike.

#[global] Instance ComparisonOp_eq_dec : EqDecision ComparisonOp.
Proof. solve_decision. Defined.

End parser.

(** What a panic carries: the two assertion failures of [qvalueInfo], the
    error of the table-key encoder, the dereference of a missing index and
    the read of a slice element that is not there. *)
Inductive panic :=
| UnexpectedStartOp (op : parser.ComparisonOp)
| UnexpectedEndOp (op : parser.ComparisonOp)
| EncodeError
| NilIndex
| IndexOutOfRange.

Inductive result (A : Type) :=
| Ok (a : A)
| Panic (p : panic).
Arguments Ok {A} a.
Arguments Panic {A} p.

#[export] Instance result_ret : MRet result := fun A a => Ok a.
#[export] Instance result_bind : MBind result := fun A B f r =>
  match r with
  | Ok a => f a
  | Panic p => Panic p
  end.

(** ** Keys *)

Abbreviation Key := (list byte).

(** [bytes.Compare]. *)
Fixpoint bytes_Compare (a b : list byte) : Z :=
  match a, b with
  | [], [] => 0
  | [], _ :: _ => -1
  | _ :: _, [] => 1
  | x :: a', y :: b' =>
      match N.compare (Byte.to_N x) (Byte.to_N y) with
      | Lt => -1
      | Gt => 1
      | Eq => bytes_Compare a' b'
      end
  end.

(** ** Descriptors *)

Abbreviation ColumnID := N (only parsing).
Abbreviation IndexID := N (only parsing).
Abbreviation ID := N (only parsing).

Record ColumnDescriptor := {
  col_Name : string;
  col_ID : ColumnID;
}.

Record IndexDescriptor := {
  idx_Name : string;
  idx_ID : IndexID;
  idx_Unique : bool;
  idx_ColumnIDs : list ColumnID;
}.

Record TableDescriptor := {
  tbl_ID : ID;
  tbl_Columns : list ColumnDescriptor;
  tbl_PrimaryIndex : IndexDescriptor;
  tbl_Indexes : list IndexDescriptor;
}.

(** A [*IndexDescriptor] that points into a table descriptor:
    [&desc.PrimaryIndex] or [&desc.Indexes[i]]. *)
Inductive IndexRef :=
| PrimaryIndexRef
| IndexesRef (i : nat).

#[export] Instance IndexRef_eq_dec : EqDecision IndexRef.
Proof. solve_decision. Defined.

Definition deref (desc : TableDescriptor) (r : IndexRef) : result IndexDescriptor :=
  match r with
  | PrimaryIndexRef => Ok (tbl_PrimaryIndex desc)
  | IndexesRef i =>
      match tbl_Indexes desc !! i with
      | Some d => Ok d
      | None => Panic NilIndex
      end
  end.

(** Modelled from the spec: [IndexDescriptor.containsColumnID] is declared
    beside the descriptors, outside this file; a column is contained in an
    index when it is one of the index's key columns. *)
Definition containsColumnID (desc : IndexDescriptor) (colID : ColumnID) : bool :=
  existsb (N.eqb colID) (idx_ColumnIDs desc).

(** ** Expressions *)

(** The datums and the expression nodes the planner does not look into. *)
Class Values := {
  Datum : Type;
  Other : Type;
}.

(** [qvalue]: the reference to a column of the row being scanned. *)
Record qvalue := {
  col : ColumnDescriptor;
}.

Section Syntax.
Context `{Values}.

(** [parser.Expr], with the node types [analyzeExpr] dispatches on. *)
Inductive Expr :=
| AndExpr (Left Right : Expr)
| OrExpr (Left Right : Expr)
| NotExpr (e : Expr)
| ParenExpr (e : Expr)
| ComparisonExpr (Operator : parser.ComparisonOp) (Left Right : Expr)
| RangeCond (Not : bool) (Left From To : Expr)
| Qvalue (q : qvalue)
| OtherExpr (o : Other).

End Syntax.

(** ** Collaborators *)

Class Collaborators `{Values} := {
  (** [encodeTableKey(b, v)]: [None] is the error return. *)
  encodeTableKey : Key -> option Datum -> option Key;
  (** [parser.EvalExpr]: [None] is the error return. *)
  EvalExpr : Expr -> option Datum;
  (** [convertDatum(col, datum)]: [true] when it returns no error. *)
  convertDatum : ColumnDescriptor -> Datum -> bool;
  (** The nodes [parser.WalkExpr] passes to the visitor, in order. *)
  WalkExpr : Expr -> list Expr;
  (** The type assertion [expr.(parser.DReference)]. *)
  isDReference : Expr -> bool;
  MakeIndexKeyPrefix : ID -> IndexID -> Key;
  Key_Next : Key -> Key;
  Key_PrefixEnd : Key -> Key;
  (** [sort.Sort] on a slice whose [Less] compares two elements. *)
  sort_Sort : forall A : Type, (A -> A -> bool) -> list A -> list A;
}.

(** ** The range algebra *)

Section Planner.
Context `{Collaborators}.

(** [qvalueInfo]: one end of a value range. *)
Record qvalueInfo := {
  datum : option Datum;
  op : parser.ComparisonOp;
}.

(** The zero value [qvalueInfo{}]. *)
Definition qvalueInfo_zero : qvalueInfo :=
  {| datum := None; op := parser.EQ |}.

Definition assertStartOp (q : qvalueInfo) : result unit :=
  match op q with
  | parser.GE | parser.GT => Ok tt
  | o => Panic (UnexpectedStartOp o)
  end.

Definition assertEndOp (q : qvalueInfo) : result unit :=
  match op q with
  | parser.LE | parser.LT => Ok tt
  | o => Panic (UnexpectedEndOp o)
  end.

(** [encodeTableKey(nil, d)], panicking on its error. *)
Definition encodeOrPanic (key : Key) (d : option Datum) : result Key :=
  match encodeTableKey key d with
  | Some k => Ok k
  | None => Panic EncodeError
  end.

Definition compare (q : qvalueInfo) (d : option Datum) : result Z :=
  oldKey ← encodeOrPanic [] (datum q);
  newKey ← encodeOrPanic [] d;
  Ok (bytes_Compare newKey oldKey).

Definition isNil (d : option Datum) : bool :=
  match d with
  | None => true
  | Some _ => false
  end.

Definition intersect (q n : qvalueInfo) (start : bool) : result qvalueInfo :=
  _ ← (if start then assertStartOp n else assertEndOp n);
  if isNil (datum q) then Ok n
  else
    let cmp := if negb start then -1 else 1 in
    c ← compare q (datum n);
    if c =? cmp then Ok n
    else if c =? 0 then
      match op n with
      | parser.GT | parser.LT => Ok {| datum := datum q; op := op n |}
      | _ => Ok q
      end
    else Ok q.

Definition union (q n : qvalueInfo) (start : bool) : result qvalueInfo :=
  _ ← (if start then assertStartOp n else assertEndOp n);
  if isNil (datum q) then Ok n
  else
    let cmp := if negb start then 1 else -1 in
    c ← compare q (datum n);
    if c =? cmp then Ok n
    else if c =? 0 then
      match op n with
      | parser.GE | parser.LE => Ok {| datum := datum q; op := op n |}
      | _ => Ok q
      end
    else Ok q.

(** ** The predicate analyzer *)

(** [qvalueRange]; the field [end] is [end_] here. *)
Record qvalueRange := {
  start : qvalueInfo;
  end_ : qvalueInfo;
}.

Definition qvalueRange_zero : qvalueRange :=
  {| start := qvalueInfo_zero; end_ := qvalueInfo_zero |}.

Abbreviation qvalueRangeMap := (gmap N qvalueRange).

(** [isConstVisitor.Visit], on the visitor's one field. *)
Definition Visit (v_isConst : bool) (expr : Expr) : bool :=
  if v_isConst then
    if isDReference expr then false else v_isConst
  else v_isConst.

Definition isConst (expr : Expr) : bool :=
  fold_left Visit (WalkExpr expr) true.

(** [m.getRange(colID)] returns a pointer into the map; the model returns
    the range, and the caller stores it back. *)
Definition getRange (m : qvalueRangeMap) (colID : ColumnID) : qvalueRange :=
  match m !! colID with
  | Some r => r
  | None => qvalueRange_zero
  end.

(** The tail of [analyzeComparisonExpr], once the column, the constant side
    and the operator (inverted when the constant was on the left) are
    known. *)
Definition restrict (m : qvalueRangeMap) (qval : qvalue) (constExpr : Expr)
    (op : parser.ComparisonOp) : result qvalueRangeMap :=
  match EvalExpr constExpr with
  | None => Ok m
  | Some d =>
      if negb (convertDatum (col qval) d) then Ok m
      else
        let r := getRange m (col_ID (col qval)) in
        s ← match op with
            | parser.EQ => intersect (start r) {| datum := Some d; op := parser.GE |} true
            | parser.GE | parser.GT => intersect (start r) {| datum := Some d; op := op |} true
            | _ => Ok (start r)
            end;
        e ← match op with
            | parser.EQ => intersect (end_ r) {| datum := Some d; op := parser.LE |} false
            | parser.LE | parser.LT => intersect (end_ r) {| datum := Some d; op := op |} false
            | _ => Ok (end_ r)
            end;
        Ok (<[col_ID (col qval) := {| start := s; end_ := e |}]> m)
  end.

Definition invertOp (op : parser.ComparisonOp) : parser.ComparisonOp :=
  match op with
  | parser.LT => parser.GT
  | parser.LE => parser.GE
  | parser.GT => parser.LT
  | parser.GE => parser.LE
  | o => o
  end.

Definition analyzeComparisonExpr (m : qvalueRangeMap)
    (Operator : parser.ComparisonOp) (Left Right : Expr) : result qvalueRangeMap :=
  match Operator with
  | parser.EQ | parser.LT | parser.LE | parser.GT | parser.GE =>
      match Left with
      | Qvalue qval =>
          if negb (isConst Right) then Ok m
          else restrict m qval Right Operator
      | _ =>
          match Right with
          | Qvalue qval =>
              if negb (isConst Left) then Ok m
              else restrict m qval Left (invertOp Operator)
          | _ => Ok m
          end
      end
  | _ => Ok m
  end.

(** One iteration of the loop over [left] in the [OrExpr] case. *)
Definition orMerge (right : qvalueRangeMap) (id : ColumnID) (lRange : qvalueRange)
    (m : qvalueRangeMap) : result qvalueRangeMap :=
  match right !! id with
  | None => Ok m
  | Some rRange =>
      s ← (if negb (isNil (datum (start lRange))) && negb (isNil (datum (start rRange)))
           then union (start lRange) (start rRange) true
           else Ok qvalueInfo_zero);
      e ← (if negb (isNil (datum (end_ lRange))) && negb (isNil (datum (end_ rRange)))
           then union (end_ lRange) (end_ rRange) false
           else Ok qvalueInfo_zero);
      if negb (isNil (datum s)) || negb (isNil (datum e))
      then Ok (<[id := {| start := s; end_ := e |}]> m)
      else Ok m
  end.

(** The loop [for id, lRange := range left]. *)
Definition orMergeAll (left right m : qvalueRangeMap) : result qvalueRangeMap :=
  map_fold (fun id lRange acc => m' ← acc; orMerge right id lRange m') (Ok m) left.

(** The measure [analyzeExpr] decreases: a range condition is rewritten to
    a conjunction or a disjunction of two comparisons before recursing. *)
Fixpoint weight (expr : Expr) : nat :=
  match expr with
  | AndExpr l r => S (weight l + weight r)
  | OrExpr l r => S (weight l + weight r)
  | ParenExpr e => S (weight e)
  | RangeCond _ _ _ _ => 4
  | _ => 1
  end.

Equations? analyzeExpr (m : qvalueRangeMap) (expr : Expr) : result qvalueRangeMap
  by wf (weight expr) lt :=
analyzeExpr m (NotExpr _) := Ok m;
analyzeExpr m (OrExpr l r) :=
  match analyzeExpr ∅ l with
  | Panic p => Panic p
  | Ok left_ =>
      match analyzeExpr ∅ r with
      | Panic p => Panic p
      | Ok right_ => orMergeAll left_ right_ m
      end
  end;
analyzeExpr m (AndExpr l r) :=
  match analyzeExpr m l with
  | Panic p => Panic p
  | Ok m' => analyzeExpr m' r
  end;
analyzeExpr m (ParenExpr e) := analyzeExpr m e;
analyzeExpr m (ComparisonExpr o l r) := analyzeComparisonExpr m o l r;
analyzeExpr m (RangeCond true l from to) :=
  analyzeExpr m (OrExpr (ComparisonExpr parser.LT l from) (ComparisonExpr parser.GT l to));
analyzeExpr m (RangeCond false l from to) :=
  analyzeExpr m (AndExpr (ComparisonExpr parser.GE l from) (ComparisonExpr parser.LE l to));
analyzeExpr m _ := Ok m.
Proof. all: simpl; lia. Qed.

(** ** The index candidate evaluator *)

(** [indexInfo]; its fields [start] and [end] are [v_start] and [v_end]. *)
Record indexInfo := {
  desc : TableDescriptor;
  index : IndexRef;
  v_start : list qvalueInfo;
  v_end : list qvalueInfo;
  cost : Q;
}.

(** [math.MaxFloat64], the largest finite [float64]. *)
Definition MaxFloat64 : Q := inject_Z (2 ^ 1024 - 2 ^ 971).

(** The loop of [makeStartInfo] over the index's column ids; [acc] is
    [v.start]. *)
Fixpoint makeStartInfo_loop (m : qvalueRangeMap) (colIDs : list ColumnID)
    (acc : list qvalueInfo) : list qvalueInfo :=
  match colIDs with
  | [] => acc
  | colID :: rest =>
      match m !! colID with
      | Some r =>
          let acc := acc ++ [start r] in
          if decide (op (start r) = parser.GE) then makeStartInfo_loop m rest acc
          else acc
      | None => acc
      end
  end.

Definition makeStartInfo (v : indexInfo) (m : qvalueRangeMap) : result indexInfo :=
  idx ← deref (desc v) (index v);
  Ok {| desc := desc v; index := index v;
        v_start := makeStartInfo_loop m (idx_ColumnIDs idx) [];
        v_end := v_end v; cost := cost v |}.

Fixpoint makeEndInfo_loop (m : qvalueRangeMap) (colIDs : list ColumnID)
    (acc : list qvalueInfo) : list qvalueInfo :=
  match colIDs with
  | [] => acc
  | colID :: rest =>
      match m !! colID with
      | Some r =>
          let acc := acc ++ [end_ r] in
          if decide (op (end_ r) = parser.LE) then makeEndInfo_loop m rest acc
          else acc
      | None => acc
      end
  end.

Definition makeEndInfo (v : indexInfo) (m : qvalueRangeMap) : result indexInfo :=
  idx ← deref (desc v) (index v);
  Ok {| desc := desc v; index := index v;
        v_start := v_start v;
        v_end := makeEndInfo_loop m (idx_ColumnIDs idx) [];
        cost := cost v |}.

(** ** The key builder *)

Fixpoint makeStartKey_loop (l : list qvalueInfo) (key : Key) : result Key :=
  match l with
  | [] => Ok key
  | e :: rest =>
      if isNil (datum e) then Ok key
      else
        key ← encodeOrPanic key (datum e);
        if decide (op e = parser.GT) then Ok (Key_Next key)
        else makeStartKey_loop rest key
  end.

Definition makeStartKey (v : indexInfo) : result Key :=
  idx ← deref (desc v) (index v);
  makeStartKey_loop (v_start v) (MakeIndexKeyPrefix (tbl_ID (desc v)) (idx_ID idx)).

(** The loop of [makeEndKey]; it returns the key and [isLT]. *)
Fixpoint makeEndKey_loop (l : list qvalueInfo) (key : Key) (isLT : bool)
    : result (Key * bool) :=
  match l with
  | [] => Ok (key, isLT)
  | e :: rest =>
      if isNil (datum e) then Ok (key, isLT)
      else
        key ← encodeOrPanic key (datum e);
        let isLT := bool_decide (op e = parser.LT) in
        if isLT then Ok (key, isLT)
        else makeEndKey_loop rest key isLT
  end.

Definition makeEndKey (v : indexInfo) : result Key :=
  idx ← deref (desc v) (index v);
  '(key, isLT) ← makeEndKey_loop (v_end v)
                    (MakeIndexKeyPrefix (tbl_ID (desc v)) (idx_ID idx)) false;
  if negb isLT then Ok (Key_PrefixEnd key) else Ok key.

(** ** Coverage and cost *)

Abbreviation qvalMap := (gmap N qvalue).

(** The loop of [isCoveringIndex] over the keys of [qvals]. *)
Fixpoint isCoveringIndex_loop (v : indexInfo) (colIDs : list ColumnID) : result bool :=
  match colIDs with
  | [] => Ok true
  | colID :: rest =>
      idx ← deref (desc v) (index v);
      if negb (containsColumnID idx colID) &&
         (idx_Unique idx || negb (containsColumnID (tbl_PrimaryIndex (desc v)) colID))
      then Ok false
      else isCoveringIndex_loop v rest
  end.

Definition isCoveringIndex (v : indexInfo) (qvals : qvalMap) : result bool :=
  if decide (index v = PrimaryIndexRef) then Ok true
  else isCoveringIndex_loop v (map_to_list qvals).*1.

Definition len {A} (l : list A) : Z := Z.of_nat (length l).

(** [analyzeRanges] reads [s.qvals] only. *)
Definition analyzeRanges (v : indexInfo) (qvals : qvalMap) (m : qvalueRangeMap)
    : result indexInfo :=
  covering ← isCoveringIndex v qvals;
  if negb covering then
    Ok {| desc := desc v; index := index v; v_start := v_start v; v_end := v_end v;
          cost := MaxFloat64 |}
  else
    v ← makeStartInfo v m;
    v ← makeEndInfo v m;
    idx ← deref (desc v) (index v);
    let cost :=
      if decide (index v = PrimaryIndexRef) then
        inject_Z (1 + len (tbl_Columns (desc v))
                  - len (idx_ColumnIDs (tbl_PrimaryIndex (desc v))))
      else inject_Z (len (idx_ColumnIDs idx)) in
    let cost :=
      if (len (v_start v) =? 0) && (len (v_end v) =? 0) then (cost * 1000)%Q
      else (cost * (inject_Z (len (idx_ColumnIDs idx) + len (idx_ColumnIDs idx))
                    / inject_Z (len (v_start v) + len (v_end v))))%Q in
    Ok {| desc := desc v; index := index v; v_start := v_start v; v_end := v_end v;
          cost := cost |}.

(** ** The selector *)

Record scanNode := {
  s_desc : option TableDescriptor;
  s_index : IndexRef;
  isSecondaryIndex : bool;
  filter : option Expr;
  qvals : qvalMap;
  startKey : Key;
  endKey : Key;
}.

(** [indexInfoByCost.Less]. *)
Definition Less (a b : indexInfo) : bool := negb (Qle_bool (cost b) (cost a)).

Definition newIndexInfo (d : TableDescriptor) (i : IndexRef) : indexInfo :=
  {| desc := d; index := i; v_start := []; v_end := []; cost := 0%Q |}.

(** The candidate list [selectIndex] builds. *)
Definition candidatesOf (s : scanNode) (d : TableDescriptor) : list indexInfo :=
  if isSecondaryIndex s then [newIndexInfo d (s_index s)]
  else newIndexInfo d PrimaryIndexRef
       :: map (fun i => newIndexInfo d (IndexesRef i)) (seq 0 (length (tbl_Indexes d))).

(** The loop [for _, c := range candidates { c.analyzeRanges(s, rangeInfo) }]. *)
Fixpoint analyzeAll (cs : list indexInfo) (qvals : qvalMap) (m : qvalueRangeMap)
    : result (list indexInfo) :=
  match cs with
  | [] => Ok []
  | c :: rest =>
      c ← analyzeRanges c qvals m;
      rest ← analyzeAll rest qvals m;
      Ok (c :: rest)
  end.

(** The candidates as [selectIndex] has them after
    [sort.Sort(indexInfoByCost(candidates))]. *)
Definition rankedCandidates (s : scanNode) (d : TableDescriptor) (f : Expr)
    : result (list indexInfo) :=
  rangeInfo ← analyzeExpr ∅ f;
  candidates ← analyzeAll (candidatesOf s d) (qvals s) rangeInfo;
  Ok (sort_Sort indexInfo Less candidates).

(** [selectIndex], with the logging at verbosity 2 left out. *)
Definition selectIndex (s : scanNode) : result scanNode :=
  match s_desc s, filter s with
  | Some d, Some f =>
      candidates ← rankedCandidates s d f;
      match candidates with
      | [] => Panic IndexOutOfRange
      | c0 :: _ =>
          sk ← makeStartKey c0;
          ek ← makeEndKey c0;
          Ok {| s_desc := s_desc s;
                s_index := index c0;
                isSecondaryIndex := bool_decide (index c0 ≠ PrimaryIndexRef);
                filter := filter s;
                qvals := qvals s;
                startKey := sk;
                endKey := ek |}
      end
  | _, _ => Ok s
  end.

End Planner.

Abbreviation qvalueRangeMap := (gmap N qvalueRange).
Abbreviation qvalMap := (gmap N qvalue).

(** ** A model of the collaborators

    Concrete collaborators on which the planner can be run: every datum is
    a 64-bit integer, encoded in eight bytes, most significant first, with
    the sign bit flipped; [OtherExpr z] is the literal [z]. *)

Module Model.

Definition byte_of_N (n : N) : byte :=
  match Byte.of_N (n mod 256) with
  | Some b => b
  | None => x00
  end.

(** The [w] low bytes of [n], most significant first. *)
Fixpoint be_bytes (w : nat) (n : N) : list byte :=
  match w with
  | O => []
  | S w' => be_bytes w' (n / 256) ++ [byte_of_N n]
  end.

Definition encodeInt (z : Z) : option (list byte) :=
  if (- 2 ^ 63 <=? z) && (z <? 2 ^ 63) then Some (be_bytes 8 (Z.to_N (z + 2 ^ 63)))
  else None.

Definition encodeKey (b : list byte) (v : option Z) : option (list byte) :=
  match v with
  | Some z => (b ++.) <$> encodeInt z
  | None => None
  end.

Definition keyPrefix (tableID indexID : N) : list byte :=
  x74 :: be_bytes 4 tableID ++ be_bytes 4 indexID.

Definition next (k : list byte) : list byte := k ++ [x00].

(** [Some] of the key with its last byte that is not 0xff incremented and
    the bytes after it zeroed; [None] when every byte is 0xff. *)
Fixpoint increment (k : list byte) : option (list byte) :=
  match k with
  | [] => None
  | b :: rest =>
      match increment rest with
      | Some r => Some (b :: r)
      | None =>
          if (Byte.to_N b =? 255)%N then None
          else Some (byte_of_N (Byte.to_N b + 1) :: map (fun _ => x00) rest)
      end
  end.

Definition KeyMax : list byte := [xff; xff].

Definition prefixEnd (k : list byte) : list byte :=
  match k with
  | [] => KeyMax
  | _ => match increment k with
         | Some r => r
         | None => k
         end
  end.

#[local] Instance values : Values := {| Datum := Z; Other := Z |}.

Definition evalLiteral (e : Expr) : option Z :=
  match e with
  | OtherExpr z => Some z
  | _ => None
  end.

Fixpoint nodes (e : Expr) : list Expr :=
  e :: match e with
       | AndExpr l r | OrExpr l r | ComparisonExpr _ l r => nodes l ++ nodes r
       | NotExpr e | ParenExpr e => nodes e
       | RangeCond _ l f t => nodes l ++ nodes f ++ nodes t
       | _ => []
       end.

Definition isQvalue (e : Expr) : bool :=
  match e with
  | Qvalue _ => true
  | _ => false
  end.

(** Insertion of [x] after the elements that are not greater than it. *)
Fixpoint insert_sorted {A} (less : A -> A -> bool) (x : A) (l : list A) : list A :=
  match l with
  | [] => [x]
  | y :: l' => if less x y then x :: l else y :: insert_sorted less x l'
  end.

Definition insertion_sort (A : Type) (less : A -> A -> bool) (l : list A) : list A :=
  foldr (insert_sorted less) [] l.

Definition collaborators
    (sort : forall A : Type, (A -> A -> bool) -> list A -> list A) : Collaborators :=
  {| encodeTableKey := encodeKey;
     EvalExpr := evalLiteral;
     convertDatum := fun _ _ => true;
     WalkExpr := nodes;
     isDReference := isQvalue;
     MakeIndexKeyPrefix := keyPrefix;
     Key_Next := next;
     Key_PrefixEnd := prefixEnd;
     sort_Sort := sort |}.

#[local] Instance stable : Collaborators := collaborators insertion_sort.

(** The table [T (a INT PRIMARY KEY, b INT)] with the index [idx_b] on
    [b]. *)
Definition col_a : ColumnDescriptor := {| col_Name := "a"; col_ID := 1 |}.
Definition col_b : ColumnDescriptor := {| col_Name := "b"; col_ID := 2 |}.
Definition lit (z : Z) : Expr := OtherExpr z.
Definition a : Expr := Qvalue {| col := col_a |}.
Definition b : Expr := Qvalue {| col := col_b |}.
Definition primary : IndexDescriptor :=
  {| idx_Name := "primary"; idx_ID := 1; idx_Unique := true; idx_ColumnIDs := [1%N] |}.
Definition idx_b : IndexDescriptor :=
  {| idx_Name := "idx_b"; idx_ID := 2; idx_Unique := false; idx_ColumnIDs := [2%N] |}.
Definition T : TableDescriptor :=
  {| tbl_ID := 51; tbl_Columns := [col_a; col_b];
     tbl_PrimaryIndex := primary; tbl_Indexes := [idx_b] |}.

End Model.

(** * Properties *)

(** ** [bytes.Compare] is the comparison of a total order *)

Lemma to_N_inj (x y : byte) : Byte.to_N x = Byte.to_N y -> x = y.
Proof.
  intros E. pose proof (Byte.of_to_N x) as Hx. rewrite E, Byte.of_to_N in Hx.
  congruence.
Qed.

Lemma bytes_Compare_range (a b : list byte) :
  bytes_Compare a b = -1 \/ bytes_Compare a b = 0 \/ bytes_Compare a b = 1.
Proof.
  revert b. induction a as [|x a IH]; intros [|y b]; simpl; auto.
  destruct (N.compare _ _); auto.
Qed.

Lemma bytes_Compare_refl (a : list byte) : bytes_Compare a a = 0.
Proof. induction a as [|x a IH]; simpl; [done|]. by rewrite N.compare_refl. Qed.

Lemma bytes_Compare_eq (a b : list byte) : bytes_Compare a b = 0 -> a = b.
Proof.
  revert b. induction a as [|x a IH]; intros [|y b]; simpl; try done.
  destruct (N.compare _ _) eqn:E; try done.
  intros Hab. apply N.compare_eq in E. apply to_N_inj in E. f_equal; auto.
Qed.

Lemma bytes_Compare_antisym (a b : list byte) :
  bytes_Compare b a = - bytes_Compare a b.
Proof.
  revert b. induction a as [|x a IH]; intros [|y b]; simpl; try done.
  rewrite (N.compare_antisym (Byte.to_N x)).
  destruct (N.compare (Byte.to_N x) (Byte.to_N y)); simpl; auto.
Qed.

Lemma bytes_Compare_lt_trans (a b c : list byte) :
  bytes_Compare a b = -1 -> bytes_Compare b c = -1 -> bytes_Compare a c = -1.
Proof.
  revert b c. induction a as [|x a IH]; intros [|y b] [|z c]; simpl; try done.
  destruct (N.compare (Byte.to_N x) (Byte.to_N y)) eqn:Exy;
    destruct (N.compare (Byte.to_N y) (Byte.to_N z)) eqn:Eyz; try done.
  - apply N.compare_eq in Exy, Eyz. rewrite Exy, Eyz, N.compare_refl. apply IH.
  - apply N.compare_eq in Exy. rewrite Exy, Eyz. done.
  - apply N.compare_eq in Eyz. rewrite <- Eyz, Exy. done.
  - assert (N.compare (Byte.to_N x) (Byte.to_N z) = Lt) as ->; [|done].
    apply N.compare_lt_iff. apply N.compare_lt_iff in Exy. apply N.compare_lt_iff in Eyz.
    by eapply N.lt_trans.
Qed.

(** The order of keys, and of two keys where the first may be equal. *)
Definition bytes_lt (a b : list byte) : Prop := bytes_Compare a b = -1.
Definition bytes_le (a b : list byte) : Prop := bytes_Compare a b <= 0.

Lemma bytes_le_lt_or_eq (a b : list byte) : bytes_le a b <-> bytes_lt a b \/ a = b.
Proof.
  unfold bytes_le, bytes_lt. split.
  - intros Hle. destruct (bytes_Compare_range a b) as [?|[E|?]]; [auto| |lia].
    right. by apply bytes_Compare_eq.
  - intros [->| ->]; [lia|]. rewrite bytes_Compare_refl. lia.
Qed.

Lemma bytes_lt_le_trans (a b c : list byte) : bytes_lt a b -> bytes_le b c -> bytes_lt a c.
Proof.
  intros Hab [Hbc| <-]%bytes_le_lt_or_eq; [|done].
  by eapply bytes_Compare_lt_trans.
Qed.

Lemma bytes_le_lt_trans (a b c : list byte) : bytes_le a b -> bytes_lt b c -> bytes_lt a c.
Proof.
  intros [Hab| ->]%bytes_le_lt_or_eq Hbc; [|done].
  by eapply bytes_Compare_lt_trans.
Qed.

Lemma bytes_le_trans (a b c : list byte) : bytes_le a b -> bytes_le b c -> bytes_le a c.
Proof.
  intros [Hab| ->]%bytes_le_lt_or_eq Hbc; [|done].
  apply bytes_le_lt_or_eq. left. by eapply bytes_lt_le_trans.
Qed.

Lemma bytes_Compare_gt (a b : list byte) : bytes_Compare a b = 1 <-> bytes_lt b a.
Proof. unfold bytes_lt. rewrite (bytes_Compare_antisym a b). lia. Qed.

(** ** The contract check on bound operators *)

(** The operators a bound may carry on its side: [>=] and [>] for a start,
    [<=] and [<] for an end. *)
Definition conforming (start : bool) (o : parser.ComparisonOp) : bool :=
  match start, o with
  | true, (parser.GE | parser.GT) => true
  | false, (parser.LE | parser.LT) => true
  | _, _ => false
  end.

(** The panic of [assertStartOp], or of [assertEndOp], on the operator. *)
Definition contractPanic (start : bool) (o : parser.ComparisonOp) : panic :=
  if start then UnexpectedStartOp o else UnexpectedEndOp o.

Definition isContractPanic {A} (r : result A) : bool :=
  match r with
  | Panic (UnexpectedStartOp _) | Panic (UnexpectedEndOp _) => true
  | _ => false
  end.

Definition rangeOp (o : parser.ComparisonOp) : bool :=
  match o with
  | parser.EQ | parser.LT | parser.LE | parser.GT | parser.GE => true
  | _ => false
  end.

Section Contract.
Context `{Collaborators}.

Lemma assert_conforming (n : qvalueInfo) (start : bool) :
  conforming start (op n) = true ->
  (if start then assertStartOp n else assertEndOp n) = Ok tt.
Proof. unfold assertStartOp, assertEndOp. by destruct start, (op n). Qed.

Lemma assert_not_conforming (n : qvalueInfo) (start : bool) :
  conforming start (op n) = false ->
  (if start then assertStartOp n else assertEndOp n) = Panic (contractPanic start (op n)).
Proof. unfold assertStartOp, assertEndOp. by destruct start, (op n). Qed.

Lemma compare_not_contract (q : qvalueInfo) (d : option Datum) :
  isContractPanic (compare q d) = false.
Proof.
  unfold compare, encodeOrPanic.
  destruct (encodeTableKey [] (datum q)); [|done].
  by destruct (encodeTableKey [] d).
Qed.

Lemma intersect_conforming (q n : qvalueInfo) (start : bool) :
  conforming start (op n) = true -> isContractPanic (intersect q n start) = false.
Proof.
  intros Hc. unfold intersect. rewrite (assert_conforming _ _ Hc). simpl.
  destruct (isNil (datum q)); [done|].
  pose proof (compare_not_contract q (datum n)) as Hcmp.
  destruct (compare q (datum n)) as [c|p]; simpl; [|done].
  repeat case_match; done.
Qed.

Lemma union_conforming (q n : qvalueInfo) (start : bool) :
  conforming start (op n) = true -> isContractPanic (union q n start) = false.
Proof.
  intros Hc. unfold union. rewrite (assert_conforming _ _ Hc). simpl.
  destruct (isNil (datum q)); [done|].
  pose proof (compare_not_contract q (datum n)) as Hcmp.
  destruct (compare q (datum n)) as [c|p]; simpl; [|done].
  repeat case_match; done.
Qed.

Lemma bind_not_contract {A B} (r : result A) (f : A -> result B) :
  isContractPanic r = false ->
  (forall a, isContractPanic (f a) = false) ->
  isContractPanic (r ≫= f) = false.
Proof. intros Hr Hf. destruct r as [a|p]; [apply Hf|done]. Qed.

Lemma restrict_not_contract (m : qvalueRangeMap) (qval : qvalue) (e : Expr)
    (o : parser.ComparisonOp) :
  isContractPanic (restrict m qval e o) = false.
Proof.
  unfold restrict. destruct (EvalExpr e) as [d|]; [|done].
  destruct (convertDatum (col qval) d); [simpl|done].
  apply bind_not_contract.
  { destruct o; try done; by apply intersect_conforming. }
  intros s. apply bind_not_contract; [|done].
  destruct o; try done; by apply intersect_conforming.
Qed.

Lemma analyzeComparisonExpr_not_contract (m : qvalueRangeMap)
    (o : parser.ComparisonOp) (l r : Expr) :
  isContractPanic (analyzeComparisonExpr m o l r) = false.
Proof.
  unfold analyzeComparisonExpr.
  destruct o; try done;
    destruct l; try (destruct r; try done);
    repeat case_match; try done; apply restrict_not_contract.
Qed.

End Contract.

(** C9.  [intersect] and [union] first check the operator of the candidate
    bound: they panic with the assertion's own panic exactly when the
    operator is outside [>=], [>] for a start and outside [<=], [<] for an
    end; with a conforming operator they never panic that way.  The
    analyzer's silent skips are another path: an operator it does not
    handle, a non-constant other side, a failed evaluation and a datum that
    does not fit the column all return the table unchanged, and no
    comparison the analyzer handles ends in the assertion's panic. *)
Theorem contract_check_on_bound_operators `{Collaborators}
    (q n : qvalueInfo) (start : bool) :
  (conforming start (op n) = false <->
     intersect q n start = Panic (contractPanic start (op n))) /\
  (conforming start (op n) = false <->
     union q n start = Panic (contractPanic start (op n))) /\
  (conforming start (op n) = true ->
     isContractPanic (intersect q n start) = false /\
     isContractPanic (union q n start) = false) /\
  (forall m o l r, isContractPanic (analyzeComparisonExpr m o l r) = false) /\
  (forall m o l r, rangeOp o = false -> analyzeComparisonExpr m o l r = Ok m) /\
  (forall m o qv r, isConst r = false ->
     analyzeComparisonExpr m o (Qvalue qv) r = Ok m) /\
  (forall m qv e o, EvalExpr e = None -> restrict m qv e o = Ok m) /\
  (forall m qv e o d, EvalExpr e = Some d -> convertDatum (col qv) d = false ->
     restrict m qv e o = Ok m).
Proof.
  split_and!.
  - split.
    + intros Hc. unfold intersect. by rewrite (assert_not_conforming _ _ Hc).
    + intros Hp. destruct (conforming start (op n)) eqn:Hc; [|done].
      pose proof (intersect_conforming q n start Hc) as Hn.
      rewrite Hp in Hn. by destruct start.
  - split.
    + intros Hc. unfold union. by rewrite (assert_not_conforming _ _ Hc).
    + intros Hp. destruct (conforming start (op n)) eqn:Hc; [|done].
      pose proof (union_conforming q n start Hc) as Hn.
      rewrite Hp in Hn. by destruct start.
  - intros Hc. split; [by apply intersect_conforming|by apply union_conforming].
  - apply analyzeComparisonExpr_not_contract.
  - intros m o l r Ho. unfold analyzeComparisonExpr. by destruct o.
  - intros m o qv r Hr. unfold analyzeComparisonExpr. rewrite Hr. by destruct o.
  - intros m qv e o He. unfold restrict. by rewrite He.
  - intros m qv e o d He Hc. unfold restrict. by rewrite He, Hc.
Qed.

(** ** Monotonic tightening and widening *)

(** What an operator says of [bytes.Compare(x, bound)]. *)
Definition opHolds (o : parser.ComparisonOp) (c : Z) : bool :=
  match o with
  | parser.EQ => c =? 0
  | parser.LT => c <? 0
  | parser.GT => 0 <? c
  | parser.LE => c <=? 0
  | parser.GE => 0 <=? c
  | parser.NE => negb (c =? 0)
  | _ => false
  end.

(** The values a bound admits, under the order of their encodings; a bound
    with no datum admits every value. *)
Definition admits `{Collaborators} (q : qvalueInfo) (x : Datum) : Prop :=
  match datum q with
  | None => True
  | Some d =>
      exists kx kd, encodeTableKey [] (Some x) = Some kx /\
                    encodeTableKey [] (Some d) = Some kd /\
                    opHolds (op q) (bytes_Compare kx kd) = true
  end.

Definition isStrict (o : parser.ComparisonOp) : bool :=
  match o with
  | parser.GT | parser.LT => true
  | _ => false
  end.

Lemma bytes_Compare_le_trans (a b c : list byte) :
  bytes_Compare a b <= 0 -> bytes_Compare b c <= 0 -> bytes_Compare a c <= 0.
Proof. apply bytes_le_trans. Qed.

Lemma bytes_Compare_lt_le_trans (a b c : list byte) :
  bytes_Compare a b < 0 -> bytes_Compare b c <= 0 -> bytes_Compare a c < 0.
Proof.
  intros Hab Hbc.
  assert (bytes_lt a c) as Hac; [|unfold bytes_lt in Hac; lia].
  apply (bytes_lt_le_trans a b c); [|done].
  unfold bytes_lt. destruct (bytes_Compare_range a b) as [?|[?|?]]; lia.
Qed.

Lemma bytes_Compare_le_lt_trans (a b c : list byte) :
  bytes_Compare a b <= 0 -> bytes_Compare b c < 0 -> bytes_Compare a c < 0.
Proof.
  intros Hab Hbc.
  assert (bytes_lt a c) as Hac; [|unfold bytes_lt in Hac; lia].
  apply (bytes_le_lt_trans a b c); [done|].
  unfold bytes_lt. destruct (bytes_Compare_range b c) as [?|[?|?]]; lia.
Qed.

(** Everything linear arithmetic needs to know about the order of three
    keys. *)
Ltac order_keys a b c :=
  pose proof (bytes_Compare_antisym a b);
  pose proof (bytes_Compare_antisym a c);
  pose proof (bytes_Compare_antisym b c);
  pose proof (bytes_Compare_le_trans a b c);
  pose proof (bytes_Compare_lt_le_trans a b c);
  pose proof (bytes_Compare_le_lt_trans a b c);
  pose proof (bytes_Compare_le_trans c b a);
  pose proof (bytes_Compare_lt_le_trans c b a);
  pose proof (bytes_Compare_le_lt_trans c b a).

Section Monotone.
Context `{Collaborators}.

Lemma compare_encoded (q : qvalueInfo) (dq dn : Datum) (kq kn : Key) :
  datum q = Some dq ->
  encodeTableKey [] (Some dq) = Some kq ->
  encodeTableKey [] (Some dn) = Some kn ->
  compare q (Some dn) = Ok (bytes_Compare kn kq).
Proof.
  intros Hq Hkq Hkn. unfold compare, encodeOrPanic. by rewrite Hq, Hkq, Hkn.
Qed.

Lemma admits_intro (q : qvalueInfo) (x d : Datum) (kx kd : Key) :
  datum q = Some d ->
  encodeTableKey [] (Some x) = Some kx ->
  encodeTableKey [] (Some d) = Some kd ->
  opHolds (op q) (bytes_Compare kx kd) = true ->
  admits q x.
Proof. intros Hq Hx Hd Ho. unfold admits. rewrite Hq. eauto. Qed.

Lemma admits_elim (q : qvalueInfo) (x d : Datum) (kd : Key) :
  datum q = Some d ->
  encodeTableKey [] (Some d) = Some kd ->
  admits q x ->
  exists kx, encodeTableKey [] (Some x) = Some kx /\
             opHolds (op q) (bytes_Compare kx kd) = true.
Proof.
  intros Hq Hd. unfold admits. rewrite Hq.
  intros (kx & kd' & Hx & Hd' & Ho). exists kx. split; [done|]. congruence.
Qed.

Lemma admits_mono (q' q : qvalueInfo) (d' d : Datum) (k' k : Key) :
  datum q' = Some d' -> datum q = Some d ->
  encodeTableKey [] (Some d') = Some k' -> encodeTableKey [] (Some d) = Some k ->
  (forall kx, opHolds (op q') (bytes_Compare kx k') = true ->
              opHolds (op q) (bytes_Compare kx k) = true) ->
  forall x, admits q' x -> admits q x.
Proof.
  intros Hq' Hq Hk' Hk Hop x Hx.
  destruct (admits_elim q' x d' k' Hq' Hk' Hx) as (kx & Hkx & Ho).
  eapply (admits_intro q); eauto.
Qed.

(** The bound [intersect] returns admits only values that both bounds
    admit. *)
Lemma intersect_sound (q n : qvalueInfo) (start : bool) (dq dn : Datum) (kq kn : Key) :
  datum q = Some dq -> datum n = Some dn ->
  conforming start (op q) = true -> conforming start (op n) = true ->
  encodeTableKey [] (Some dq) = Some kq -> encodeTableKey [] (Some dn) = Some kn ->
  exists q', intersect q n start = Ok q' /\
    conforming start (op q') = true /\
    (datum q' = Some dq \/ datum q' = Some dn) /\
    (forall x, admits q' x -> admits q x /\ admits n x) /\
    (kn = kq -> datum q' = datum q /\
                isStrict (op q') = isStrict (op q) || isStrict (op n)).
Proof.
  intros Hq Hn Hcq Hcn Hkq Hkn. unfold intersect.
  rewrite (assert_conforming _ _ Hcn). simpl. rewrite Hq. simpl.
  rewrite Hn, (compare_encoded q dq dn kq kn Hq Hkq Hkn). simpl.
  destruct q as [dq' oq], n as [dn' on]. simpl in *. subst dq' dn'.
  pose proof (bytes_Compare_refl kq) as Hrefl.
  destruct (bytes_Compare_range kn kq) as [E|[E|E]]; rewrite E;
    destruct start, oq; try discriminate; destruct on; try discriminate; simpl;
    (eexists; split; [reflexivity|]; simpl; split_and!;
     [done
     |(by left) || (by right)
     |intros x Hx; split;
        (eapply admits_mono; [..|exact Hx];
         [reflexivity|reflexivity|eassumption|eassumption|];
         simpl; intros kx Ho; order_keys kx kn kq; lia)
     |intros Ek; first [by (subst kn; rewrite Hrefl in E)|done]]).
Qed.

(** The bound [union] returns admits every value that either bound
    admits. *)
Lemma union_sound (q n : qvalueInfo) (start : bool) (dq dn : Datum) (kq kn : Key) :
  datum q = Some dq -> datum n = Some dn ->
  conforming start (op q) = true -> conforming start (op n) = true ->
  encodeTableKey [] (Some dq) = Some kq -> encodeTableKey [] (Some dn) = Some kn ->
  exists q', union q n start = Ok q' /\
    conforming start (op q') = true /\
    (datum q' = Some dq \/ datum q' = Some dn) /\
    (forall x, admits q x \/ admits n x -> admits q' x) /\
    (kn = kq -> datum q' = datum q /\
                isStrict (op q') = isStrict (op q) && isStrict (op n)).
Proof.
  intros Hq Hn Hcq Hcn Hkq Hkn. unfold union.
  rewrite (assert_conforming _ _ Hcn). simpl. rewrite Hq. simpl.
  rewrite Hn, (compare_encoded q dq dn kq kn Hq Hkq Hkn). simpl.
  destruct q as [dq' oq], n as [dn' on]. simpl in *. subst dq' dn'.
  pose proof (bytes_Compare_refl kq) as Hrefl.
  destruct (bytes_Compare_range kn kq) as [E|[E|E]]; rewrite E;
    destruct start, oq; try discriminate; destruct on; try discriminate; simpl;
    (eexists; split; [reflexivity|]; simpl; split_and!;
     [done
     |(by left) || (by right)
     |intros x [Hx|Hx];
        (eapply admits_mono; [..|exact Hx];
         [reflexivity|reflexivity|eassumption|eassumption|];
         simpl; intros kx Ho; order_keys kx kn kq; lia)
     |intros Ek; first [by (subst kn; rewrite Hrefl in E)|done]]).
Qed.

End Monotone.

(** C7.  For a constraint [q] with a value and a candidate [n] with a
    value, both carrying an operator of the side at hand, and with both
    values encodable: [intersect] returns a bound that admits no value [q]
    does not admit, and [union] returns a bound that admits every value [q]
    admits.  When the two values are equal the value is kept, and
    [intersect] returns the strict operator if either is strict while
    [union] returns the inclusive operator if either is inclusive. *)
Theorem intersect_never_widens_union_never_narrows `{Collaborators}
    (q n : qvalueInfo) (start : bool) (dq dn : Datum) (kq kn : Key) :
  datum q = Some dq -> datum n = Some dn ->
  conforming start (op q) = true -> conforming start (op n) = true ->
  encodeTableKey [] (Some dq) = Some kq -> encodeTableKey [] (Some dn) = Some kn ->
  (exists q', intersect q n start = Ok q' /\
     (forall x, admits q' x -> admits q x) /\
     (kn = kq -> datum q' = datum q /\
                 isStrict (op q') = isStrict (op q) || isStrict (op n))) /\
  (exists q', union q n start = Ok q' /\
     (forall x, admits q x -> admits q' x) /\
     (kn = kq -> datum q' = datum q /\
                 isStrict (op q') = isStrict (op q) && isStrict (op n))).
Proof.
  intros Hq Hn Hcq Hcn Hkq Hkn. split.
  - destruct (intersect_sound q n start dq dn kq kn) as (q' & Hi & _ & _ & Ha & He);
      try done.
    exists q'. split_and!; [done| |done]. intros x Hx. by apply Ha.
  - destruct (union_sound q n start dq dn kq kn) as (q' & Hu & _ & _ & Ha & He);
      try done.
    exists q'. split_and!; [done| |done]. intros x Hx. apply Ha. by left.
Qed.

(** ** Bound extraction *)

(** The list both extraction loops build: the chosen end of the entry of
    each column, up to and including the first one whose operator is not
    [cont], and up to the first column that has no entry. *)
Fixpoint extract `{Collaborators} (proj : qvalueRange -> qvalueInfo)
    (cont : parser.ComparisonOp) (m : qvalueRangeMap) (colIDs : list N)
    : list qvalueInfo :=
  match colIDs with
  | [] => []
  | colID :: rest =>
      match m !! colID with
      | Some r =>
          proj r :: (if decide (op (proj r) = cont) then extract proj cont m rest else [])
      | None => []
      end
  end.

Section Extraction.
Context `{Collaborators}.

Lemma makeStartInfo_loop_extract (m : qvalueRangeMap) (colIDs : list N)
    (acc : list qvalueInfo) :
  makeStartInfo_loop m colIDs acc = acc ++ extract start parser.GE m colIDs.
Proof.
  revert acc. induction colIDs as [|c rest IH]; intros acc; simpl.
  - by rewrite app_nil_r.
  - destruct (m !! c) as [r|]; [|by rewrite app_nil_r].
    case_decide; [|done]. by rewrite IH, <- app_assoc.
Qed.

Lemma makeEndInfo_loop_extract (m : qvalueRangeMap) (colIDs : list N)
    (acc : list qvalueInfo) :
  makeEndInfo_loop m colIDs acc = acc ++ extract end_ parser.LE m colIDs.
Proof.
  revert acc. induction colIDs as [|c rest IH]; intros acc; simpl.
  - by rewrite app_nil_r.
  - destruct (m !! c) as [r|]; [|by rewrite app_nil_r].
    case_decide; [|done]. by rewrite IH, <- app_assoc.
Qed.

Variable proj : qvalueRange -> qvalueInfo.
Variable cont : parser.ComparisonOp.
Variable m : qvalueRangeMap.

Lemma extract_length (colIDs : list N) :
  (length (extract proj cont m colIDs) <= length colIDs)%nat.
Proof.
  induction colIDs as [|c rest IH]; simpl; [lia|].
  destruct (m !! c); simpl; [|lia]. case_decide; simpl; lia.
Qed.

(** The element at position [i] is the bound of column [i], and every
    element but the last carries [cont]. *)
Lemma extract_lookup (colIDs : list N) (i : nat) (q : qvalueInfo) :
  extract proj cont m colIDs !! i = Some q ->
  exists c r, colIDs !! i = Some c /\ m !! c = Some r /\ q = proj r /\
    ((S i < length (extract proj cont m colIDs))%nat -> op q = cont).
Proof.
  revert i. induction colIDs as [|c rest IH]; intros i; simpl; [done|].
  destruct (m !! c) as [r|] eqn:Hc; [|done].
  destruct i as [|i]; simpl.
  - intros [= <-]. exists c, r. split_and!; try done.
    case_decide; simpl; [done|lia].
  - case_decide; [|done]. intros Hi.
    destruct (IH i Hi) as (c' & r' & ? & ? & ? & Hop).
    exists c', r'. split_and!; try done. intros Hlt. apply Hop. lia.
Qed.

(** Why the list ends before the columns do: the next column has no entry,
    or the last bound appended does not carry [cont]. *)
Lemma extract_stop (colIDs : list N) (c : N) :
  colIDs !! length (extract proj cont m colIDs) = Some c ->
  m !! c = None \/
  exists q, last (extract proj cont m colIDs) = Some q /\ op q <> cont.
Proof.
  induction colIDs as [|c0 rest IH]; simpl; [done|].
  destruct (m !! c0) as [r|] eqn:Hc; simpl.
  - case_decide as Hop; simpl.
    + intros Hl. destruct (IH Hl) as [?|(q & Hq & ?)]; [by left|right].
      exists q. split; [|done].
      destruct (extract proj cont m rest); [done|]. done.
    + intros _. right. exists (proj r). done.
  - intros [= <-]. by left.
Qed.

End Extraction.

(** X1.  [makeStartInfo] walks the index's columns in
    declared order.  It appends the start bound of each column's entry in
    the range table; it goes on only after a bound carrying [>=]; it stops,
    appending nothing, at the first column that has no entry; it stops
    right after appending a bound that does not carry [>=], which is a
    strict [>] bound or the empty bound of an entry that has only an upper
    bound.  [makeEndInfo] does the same with the end bounds and [<=]. *)
Theorem bound_extraction_stop_rule `{Collaborators}
    (m : qvalueRangeMap) (colIDs : list N) :
  let s := makeStartInfo_loop m colIDs [] in
  let e := makeEndInfo_loop m colIDs [] in
  ((length s <= length colIDs)%nat /\
   (forall i q, s !! i = Some q ->
      exists c r, colIDs !! i = Some c /\ m !! c = Some r /\ q = start r /\
        ((S i < length s)%nat -> op q = parser.GE)) /\
   (forall c, colIDs !! length s = Some c ->
      m !! c = None \/ exists q, last s = Some q /\ op q <> parser.GE)) /\
  ((length e <= length colIDs)%nat /\
   (forall i q, e !! i = Some q ->
      exists c r, colIDs !! i = Some c /\ m !! c = Some r /\ q = end_ r /\
        ((S i < length e)%nat -> op q = parser.LE)) /\
   (forall c, colIDs !! length e = Some c ->
      m !! c = None \/ exists q, last e = Some q /\ op q <> parser.LE)).
Proof.
  simpl. rewrite makeStartInfo_loop_extract, makeEndInfo_loop_extract. simpl.
  split; (split_and!; [apply extract_length|apply extract_lookup|apply extract_stop]).
Qed.

(** ** The cost of a candidate *)

Lemma len_zero {A} (l : list A) : (len l =? 0) = bool_decide (l = []).
Proof. by destruct l. Qed.

(** The base cost: the number of keys per row. *)
Definition baseCost `{Collaborators} (v : indexInfo) (idx : IndexDescriptor) : Z :=
  if decide (index v = PrimaryIndexRef) then
    1 + len (tbl_Columns (desc v)) - len (idx_ColumnIDs (tbl_PrimaryIndex (desc v)))
  else len (idx_ColumnIDs idx).

Lemma analyzeRanges_covering `{Collaborators} (v : indexInfo) (qvals : qvalMap)
    (m : qvalueRangeMap) (idx : IndexDescriptor) :
  isCoveringIndex v qvals = Ok true ->
  deref (desc v) (index v) = Ok idx ->
  analyzeRanges v qvals m =
    let s := makeStartInfo_loop m (idx_ColumnIDs idx) [] in
    let e := makeEndInfo_loop m (idx_ColumnIDs idx) [] in
    Ok {| desc := desc v; index := index v; v_start := s; v_end := e;
          cost := if (len s =? 0) && (len e =? 0)
                  then (inject_Z (baseCost v idx) * 1000)%Q
                  else (inject_Z (baseCost v idx) *
                        (inject_Z (len (idx_ColumnIDs idx) + len (idx_ColumnIDs idx))
                         / inject_Z (len s + len e)))%Q |}.
Proof.
  intros Hcov Hidx. unfold analyzeRanges. rewrite Hcov. simpl.
  unfold makeStartInfo. rewrite Hidx. simpl.
  unfold makeEndInfo. simpl. rewrite Hidx. simpl. rewrite Hidx. simpl.
  unfold baseCost. by case_decide.
Qed.


(** ** Coverage *)

(** The test [isCoveringIndex] makes on one referenced column: the column
    is a key column of the index, or the index is not unique and the column
    is a key column of the primary index. *)
Definition coversColumn (idx pk : IndexDescriptor) (colID : N) : bool :=
  negb (negb (containsColumnID idx colID) &&
        (idx_Unique idx || negb (containsColumnID pk colID))).

Lemma isCoveringIndex_loop_forallb `{Collaborators} (v : indexInfo)
    (idx : IndexDescriptor) (colIDs : list N) :
  deref (desc v) (index v) = Ok idx ->
  isCoveringIndex_loop v colIDs =
    Ok (forallb (coversColumn idx (tbl_PrimaryIndex (desc v))) colIDs).
Proof.
  intros Hidx. induction colIDs as [|c rest IH]; simpl; [done|].
  rewrite Hidx. simpl. unfold coversColumn at 1.
  destruct (negb (containsColumnID idx c) && _); simpl; [done|apply IH].
Qed.

Lemma coversColumn_true (idx pk : IndexDescriptor) (colID : N) :
  coversColumn idx pk colID = true <->
  containsColumnID idx colID = true \/
  (idx_Unique idx = false /\ containsColumnID pk colID = true).
Proof.
  unfold coversColumn.
  destruct (containsColumnID idx colID), (idx_Unique idx), (containsColumnID pk colID);
    simpl; intuition congruence.
Qed.

Lemma isCoveringIndex_secondary `{Collaborators} (v : indexInfo) (qvals : qvalMap)
    (idx : IndexDescriptor) :
  index v <> PrimaryIndexRef ->
  deref (desc v) (index v) = Ok idx ->
  exists b, isCoveringIndex v qvals = Ok b /\
    (b = true <->
     forall colID, is_Some (qvals !! colID) ->
       coversColumn idx (tbl_PrimaryIndex (desc v)) colID = true).
Proof.
  intros Hsec Hidx. unfold isCoveringIndex. case_decide; [done|].
  rewrite (isCoveringIndex_loop_forallb v idx _ Hidx). eexists. split; [done|].
  rewrite forallb_forall. split.
  - intros Hall c [q Hq]. apply Hall. apply list_elem_of_In.
    apply list_elem_of_fmap. exists (c, q). split; [done|].
    by apply elem_of_map_to_list.
  - intros Hall c Hc. apply list_elem_of_In in Hc.
    apply list_elem_of_fmap in Hc as ([c' q] & -> & Hq).
    apply elem_of_map_to_list in Hq. apply Hall. by exists q.
Qed.

(** X3.  [isCoveringIndex] answers [true] for the primary index whatever the
    referenced columns are.  For a secondary index it answers [true] exactly
    when every referenced column is a key column of the index or, the index
    not being unique, a key column of the primary index; the answer does
    not depend on the order in which the map of referenced columns is
    walked. *)
Theorem covering_index_rule `{Collaborators} (v : indexInfo) (qvals : qvalMap)
    (idx : IndexDescriptor) :
  deref (desc v) (index v) = Ok idx ->
  exists b, isCoveringIndex v qvals = Ok b /\
    (b = true <->
     index v = PrimaryIndexRef \/
     forall colID, is_Some (qvals !! colID) ->
       containsColumnID idx colID = true \/
       (idx_Unique idx = false /\
        containsColumnID (tbl_PrimaryIndex (desc v)) colID = true)).
Proof.
  intros Hidx. destruct (decide (index v = PrimaryIndexRef)) as [Hp|Hs].
  - exists true. unfold isCoveringIndex. case_decide; [|done]. split; [done|]. tauto.
  - destruct (isCoveringIndex_secondary v qvals idx Hs Hidx) as (b & Hb & Hiff).
    exists b. split; [done|]. rewrite Hiff. split.
    + intros Hall. right. intros c Hc. apply coversColumn_true. by apply Hall.
    + intros [?|Hall]; [done|]. intros c Hc. apply coversColumn_true. by apply Hall.
Qed.

(** ** The selector *)

(** What [sort.Sort] guarantees when [Less] is a strict weak order: it
    permutes the slice, and afterwards no element is less than one that
    stands before it.  Nothing is promised on the order of elements that
    compare equal, as the sort is not stable. *)
Definition SortContract `{Collaborators} : Prop :=
  forall (A : Type) (less : A -> A -> bool) (l : list A),
    (forall x, less x x = false) ->
    (forall x y z, less x y = true -> less y z = true -> less x z = true) ->
    (forall x y z, less x y = false -> less y z = false -> less x z = false) ->
    Permutation l (sort_Sort A less l) /\
    (forall i j x y, (i < j)%nat ->
       sort_Sort A less l !! i = Some x -> sort_Sort A less l !! j = Some y ->
       less y x = false).

Section Selector.
Context `{Collaborators}.

Lemma Less_lt (a b : indexInfo) : Less a b = true <-> (cost a < cost b)%Q.
Proof.
  unfold Less. rewrite negb_true_iff. split.
  - intros Hle. apply Qnot_le_lt. intros Hq. apply Qle_bool_iff in Hq. congruence.
  - intros Hlt. destruct (Qle_bool (cost b) (cost a)) eqn:E; [|done].
    apply Qle_bool_iff in E. by apply Qlt_not_le in Hlt.
Qed.

Lemma Less_false (a b : indexInfo) : Less a b = false <-> (cost b <= cost a)%Q.
Proof.
  unfold Less. rewrite negb_false_iff. apply Qle_bool_iff.
Qed.

Lemma Less_irrefl (a : indexInfo) : Less a a = false.
Proof. apply Less_false. apply Qle_refl. Qed.

Lemma Less_trans (a b c : indexInfo) :
  Less a b = true -> Less b c = true -> Less a c = true.
Proof. rewrite !Less_lt. apply Qlt_trans. Qed.

Lemma Less_neg_trans (a b c : indexInfo) :
  Less a b = false -> Less b c = false -> Less a c = false.
Proof. rewrite !Less_false. intros Hab Hbc. by eapply Qle_trans. Qed.

(** [analyzeRanges] changes neither the table nor the index of a
    candidate. *)
Lemma analyzeRanges_index (v v' : indexInfo) (qvals : qvalMap) (m : qvalueRangeMap) :
  analyzeRanges v qvals m = Ok v' -> desc v' = desc v /\ index v' = index v.
Proof.
  unfold analyzeRanges, makeStartInfo, makeEndInfo.
  destruct (isCoveringIndex v qvals) as [[]|]; simpl; [|by intros [= <-]|done].
  destruct (deref (desc v) (index v)); simpl; [|done].
  destruct (deref (desc v) (index v)); simpl; [|done].
  destruct (deref (desc v) (index v)); simpl; [|done].
  by intros [= <-].
Qed.

Lemma analyzeAll_Forall2 (cs l : list indexInfo) (qvals : qvalMap) (m : qvalueRangeMap) :
  analyzeAll cs qvals m = Ok l ->
  Forall2 (fun c c' => analyzeRanges c qvals m = Ok c') cs l.
Proof.
  revert l. induction cs as [|c cs IH]; intros l; simpl.
  - intros [= <-]. constructor.
  - destruct (analyzeRanges c qvals m) as [c'|] eqn:Hc; simpl; [|done].
    destruct (analyzeAll cs qvals m) as [l'|]; simpl; [|done].
    intros [= <-]. constructor; [done|]. by apply IH.
Qed.

(** What a run of [selectIndex] that has a table and a filter went
    through. *)
Lemma selectIndex_inv (s s' : scanNode) (d : TableDescriptor) (f : Expr) :
  s_desc s = Some d -> filter s = Some f -> selectIndex s = Ok s' ->
  exists m analysed c0 rest,
    analyzeExpr ∅ f = Ok m /\
    analyzeAll (candidatesOf s d) (qvals s) m = Ok analysed /\
    sort_Sort indexInfo Less analysed = c0 :: rest /\
    makeStartKey c0 = Ok (startKey s') /\
    makeEndKey c0 = Ok (endKey s') /\
    s_index s' = index c0 /\
    isSecondaryIndex s' = bool_decide (index c0 <> PrimaryIndexRef) /\
    s_desc s' = s_desc s /\ filter s' = filter s /\ qvals s' = qvals s.
Proof.
  intros Hd Hf. unfold selectIndex, rankedCandidates. rewrite Hd, Hf.
  destruct (analyzeExpr ∅ f) as [m|]; simpl; [|done].
  destruct (analyzeAll _ _ m) as [analysed|] eqn:Ha; simpl; [|done].
  destruct (sort_Sort indexInfo Less analysed) as [|c0 rest] eqn:Hsort; [done|].
  destruct (makeStartKey c0) as [sk|] eqn:Hsk; simpl; [|done].
  destruct (makeEndKey c0) as [ek|] eqn:Hek; simpl; [|done].
  intros [= <-]. exists m, analysed, c0, rest. simpl. by split_and!.
Qed.

Lemma sorted_head_least (l : list indexInfo) (c0 : indexInfo) (rest : list indexInfo) :
  SortContract ->
  sort_Sort indexInfo Less l = c0 :: rest ->
  c0 ∈ l /\ forall c, c ∈ l -> (cost c0 <= cost c)%Q.
Proof.
  intros Hsort Heq.
  destruct (Hsort indexInfo Less l Less_irrefl Less_trans Less_neg_trans) as [Hperm Hord].
  rewrite Heq in Hperm, Hord. split.
  - rewrite Hperm. left.
  - intros c Hc. rewrite Hperm in Hc.
    apply list_elem_of_lookup in Hc as [[|j] Hj].
    + injection Hj as <-. apply Qle_refl.
    + apply Less_false. apply (Hord 0%nat (S j)); [lia|done|done].
Qed.

End Selector.

(** X4.  When [sort.Sort] keeps its contract, a run of [selectIndex] on a
    scan with a table and a filter commits a candidate of least cost: the
    index, the secondary-index flag and the two keys written to the scan
    are those of one analysed candidate, and no analysed candidate has a
    smaller cost.  The table, the filter and the referenced columns of the
    scan are left as they were. *)
Theorem selectIndex_commits_a_cheapest_candidate `{Collaborators}
    (s s' : scanNode) (d : TableDescriptor) (f : Expr) :
  SortContract ->
  s_desc s = Some d -> filter s = Some f ->
  selectIndex s = Ok s' ->
  exists m analysed c0,
    analyzeExpr ∅ f = Ok m /\
    analyzeAll (candidatesOf s d) (qvals s) m = Ok analysed /\
    c0 ∈ analysed /\
    (forall c, c ∈ analysed -> (cost c0 <= cost c)%Q) /\
    s_index s' = index c0 /\
    isSecondaryIndex s' = bool_decide (index c0 <> PrimaryIndexRef) /\
    makeStartKey c0 = Ok (startKey s') /\
    makeEndKey c0 = Ok (endKey s') /\
    s_desc s' = s_desc s /\ filter s' = filter s /\ qvals s' = qvals s.
Proof.
  intros Hsort Hd Hf Hsel.
  destruct (selectIndex_inv s s' d f Hd Hf Hsel)
    as (m & analysed & c0 & rest & Hm & Ha & Hs & Hsk & Hek & Hi & Hflag & ? & ? & ?).
  destruct (sorted_head_least analysed c0 rest Hsort Hs) as [Hin Hleast].
  exists m, analysed, c0. by split_and!.
Qed.

(** ** The model's sort keeps the contract of [sort.Sort] *)

Section InsertionSort.
Context {A : Type} (less : A -> A -> bool).
Hypothesis less_irrefl : forall x, less x x = false.
Hypothesis less_trans :
  forall x y z, less x y = true -> less y z = true -> less x z = true.

Lemma insert_sorted_Permutation (x : A) (l : list A) :
  Permutation (x :: l) (Model.insert_sorted less x l).
Proof.
  induction l as [|y l IH]; simpl; [done|].
  destruct (less x y); [done|]. rewrite <- IH. apply perm_swap.
Qed.

Lemma insertion_sort_Permutation (l : list A) :
  Permutation l (Model.insertion_sort A less l).
Proof.
  unfold Model.insertion_sort. induction l as [|x l IH]; simpl; [done|].
  rewrite <- insert_sorted_Permutation. by constructor.
Qed.

Lemma insert_sorted_StronglySorted (x : A) (l : list A) :
  StronglySorted (fun a b => less b a = false) l ->
  StronglySorted (fun a b => less b a = false) (Model.insert_sorted less x l).
Proof.
  induction 1 as [|y l Hl IH Hy]; simpl.
  - repeat constructor.
  - destruct (less x y) eqn:Hxy.
    + constructor; [by constructor|]. constructor.
      * destruct (less y x) eqn:Hyx; [|done].
        pose proof (less_irrefl x) as Hx. by rewrite (less_trans x y x Hxy Hyx) in Hx.
      * eapply Forall_impl; [exact Hy|]. simpl. intros z Hzy.
        destruct (less z x) eqn:Hzx; [|done].
        by rewrite (less_trans z x y Hzx Hxy) in Hzy.
    + constructor; [done|].
      rewrite <- insert_sorted_Permutation. by constructor.
Qed.

Lemma insertion_sort_StronglySorted (l : list A) :
  StronglySorted (fun a b => less b a = false) (Model.insertion_sort A less l).
Proof.
  unfold Model.insertion_sort. induction l as [|x l IH]; simpl; [constructor|].
  by apply insert_sorted_StronglySorted.
Qed.

Lemma StronglySorted_lookup (R : A -> A -> Prop) (l : list A) (i j : nat) (x y : A) :
  StronglySorted R l -> (i < j)%nat -> l !! i = Some x -> l !! j = Some y -> R x y.
Proof.
  intros Hl. revert i j. induction Hl as [|a l Hl IH Ha]; intros i j Hij; [done|].
  destruct j as [|j]; [lia|]. destruct i as [|i]; simpl.
  - intros [= <-] Hy. rewrite Forall_forall in Ha. apply Ha.
    by eapply list_elem_of_lookup_2.
  - apply IH. lia.
Qed.

End InsertionSort.

Lemma insertion_sort_contract : @SortContract Model.values Model.stable.
Proof.
  intros A less l Hirr Htrans _. simpl. split.
  - apply insertion_sort_Permutation.
  - intros i j x y Hij Hx Hy.
    by apply (StronglySorted_lookup (fun a b => less b a = false) _ i j x y
                (insertion_sort_StronglySorted less Hirr Htrans l)).
Qed.

(** ** An explicitly requested secondary index *)

Section Explicit.
Context `{Collaborators}.

Lemma sort_singleton (c : indexInfo) :
  SortContract -> sort_Sort indexInfo Less [c] = [c].
Proof.
  intros Hsort.
  destruct (Hsort indexInfo Less [c] Less_irrefl Less_trans Less_neg_trans) as [Hperm _].
  by apply Permutation_length_1_inv.
Qed.

(** The candidates of a scan that names a secondary index, after the
    analysis and the sort: the one candidate of that index. *)
Lemma rankedCandidates_explicit (s : scanNode) (d : TableDescriptor) (f : Expr)
    (m : qvalueRangeMap) :
  SortContract ->
  isSecondaryIndex s = true ->
  analyzeExpr ∅ f = Ok m ->
  rankedCandidates s d f =
    c ← analyzeRanges (newIndexInfo d (s_index s)) (qvals s) m; Ok [c].
Proof.
  intros Hsort Hsec Hm. unfold rankedCandidates, candidatesOf. rewrite Hm, Hsec. simpl.
  destruct (analyzeRanges _ _ m) as [c|]; simpl; [|done].
  by rewrite sort_singleton.
Qed.

End Explicit.

(** X5.  A scan that names a secondary index keeps it: whatever the cost
    analysis finds, a run of [selectIndex] that returns leaves the index of
    the scan as requested, and with it the table, the filter and the
    referenced columns.  When the scan has a table and a filter the flag is
    recomputed: it stays set unless the index named is the primary one. *)
Theorem explicit_secondary_index_is_committed `{Collaborators} (s s' : scanNode) :
  SortContract ->
  isSecondaryIndex s = true ->
  selectIndex s = Ok s' ->
  s_index s' = s_index s /\
  s_desc s' = s_desc s /\ filter s' = filter s /\ qvals s' = qvals s /\
  (is_Some (s_desc s) -> is_Some (filter s) ->
   isSecondaryIndex s' = bool_decide (s_index s <> PrimaryIndexRef)).
Proof.
  intros Hsort Hsec Hsel.
  destruct (s_desc s) as [d|] eqn:Hd; cycle 1.
  { unfold selectIndex in Hsel. rewrite Hd in Hsel. injection Hsel as <-.
    split_and!; done. }
  destruct (filter s) as [f|] eqn:Hf; cycle 1.
  { unfold selectIndex in Hsel. rewrite Hd, Hf in Hsel. injection Hsel as <-.
    split_and!; done. }
  destruct (selectIndex_inv s s' d f Hd Hf Hsel)
    as (m & analysed & c0 & rest & Hm & Ha & Hs & _ & _ & Hi & Hflag & Hd' & Hf' & Hq).
  unfold candidatesOf in Ha. rewrite Hsec in Ha. simpl in Ha.
  destruct (analyzeRanges _ _ m) as [c|] eqn:Hc; simpl in Ha; [|done].
  injection Ha as <-. rewrite sort_singleton in Hs by done. injection Hs as <- <-.
  apply analyzeRanges_index in Hc as [_ Hc]. simpl in Hc.
  rewrite Hflag, Hi, Hc, Hd', Hf', Hq, Hd, Hf. done.
Qed.

(** X6.  A scan that names a secondary index which does not cover the
    referenced columns still commits that index, and scans all of it: once
    the filter is analysed, [selectIndex] returns the scan with the start
    key at the index's key prefix and the end key at the end of that
    prefix, whatever the filter says. *)
Theorem explicit_non_covering_index_scans_the_whole_index `{Collaborators}
    (s : scanNode) (d : TableDescriptor) (f : Expr) (idx : IndexDescriptor)
    (m : qvalueRangeMap) :
  SortContract ->
  isSecondaryIndex s = true ->
  s_desc s = Some d -> filter s = Some f ->
  deref d (s_index s) = Ok idx ->
  isCoveringIndex (newIndexInfo d (s_index s)) (qvals s) = Ok false ->
  analyzeExpr ∅ f = Ok m ->
  selectIndex s =
    Ok {| s_desc := s_desc s; s_index := s_index s; isSecondaryIndex := true;
          filter := filter s; qvals := qvals s;
          startKey := MakeIndexKeyPrefix (tbl_ID d) (idx_ID idx);
          endKey := Key_PrefixEnd (MakeIndexKeyPrefix (tbl_ID d) (idx_ID idx)) |}.
Proof.
  intros Hsort Hsec Hd Hf Hidx Hcov Hm.
  assert (s_index s <> PrimaryIndexRef) as Hnp.
  { intros Hp. unfold isCoveringIndex in Hcov. simpl in Hcov.
    by rewrite decide_True in Hcov. }
  unfold selectIndex. rewrite Hd, Hf.
  rewrite (rankedCandidates_explicit s d f m Hsort Hsec Hm).
  unfold analyzeRanges. rewrite Hcov. simpl.
  unfold makeStartKey, makeEndKey. simpl. rewrite Hidx. simpl.
  by rewrite bool_decide_true.
Qed.

(** ** Candidates that do not cover the query *)

Lemma scaled_cost_le (b k t : Z) :
  0 <= k -> 1 <= t ->
  (inject_Z b * (inject_Z k / inject_Z t) <= inject_Z (Z.max 0 b * k))%Q.
Proof.
  intros Hk Ht. destruct t as [|p|p]; [lia| |lia].
  unfold Qle, Qdiv, Qmult, Qinv, inject_Z. simpl.
  destruct (Z.max_spec 0 b) as [[? ->]|[? ->]]; nia.
Qed.

Lemma MaxFloat64_large : (2 ^ 63 * 2 ^ 64 < 2 ^ 1024 - 2 ^ 971)%Z.
Proof. vm_compute. reflexivity. Qed.

Section Covering.
Context `{Collaborators}.

(** The cost of a covering candidate is below [math.MaxFloat64] when the
    lengths it is computed from are those of Go slices. *)
Lemma covering_cost_lt_MaxFloat64 (v v' : indexInfo) (qvals : qvalMap)
    (m : qvalueRangeMap) (idx : IndexDescriptor) :
  isCoveringIndex v qvals = Ok true ->
  deref (desc v) (index v) = Ok idx ->
  len (tbl_Columns (desc v)) < 2 ^ 63 ->
  len (idx_ColumnIDs idx) < 2 ^ 63 ->
  analyzeRanges v qvals m = Ok v' ->
  (cost v' < MaxFloat64)%Q.
Proof.
  intros Hcov Hidx Hcols Hn. rewrite (analyzeRanges_covering v qvals m idx Hcov Hidx).
  intros [= <-]. simpl.
  set (s := makeStartInfo_loop m (idx_ColumnIDs idx) []).
  set (e := makeEndInfo_loop m (idx_ColumnIDs idx) []).
  assert (0 <= len s /\ 0 <= len e /\ 0 <= len (idx_ColumnIDs idx) /\
          0 <= len (idx_ColumnIDs (tbl_PrimaryIndex (desc v)))) as (Hs & He & Hn0 & Hp0).
  { unfold len. lia. }
  assert (baseCost v idx <= 2 ^ 63) as Hbase.
  { unfold baseCost. case_decide; lia. }
  pose proof MaxFloat64_large as Hlarge.
  unfold MaxFloat64.
  destruct ((len s =? 0) && (len e =? 0)) eqn:Hse.
  - apply Qle_lt_trans with (inject_Z (2 ^ 63 * 2 ^ 64)); [|by rewrite <- Zlt_Qlt].
    replace 1000%Q with (inject_Z 1000) by done.
    rewrite <- inject_Z_mult. rewrite <- Zle_Qle. nia.
  - eapply Qle_lt_trans; [apply scaled_cost_le|].
    + lia.
    + apply andb_false_iff in Hse as [Hz|Hz]; apply Z.eqb_neq in Hz; lia.
    + apply Qle_lt_trans with (inject_Z (2 ^ 63 * 2 ^ 64)); [|by rewrite <- Zlt_Qlt].
      rewrite <- Zle_Qle. destruct (Z.max_spec 0 (baseCost v idx)) as [[? ->]|[? ->]]; nia.
Qed.

Lemma isCoveringIndex_newIndexInfo (v : indexInfo) (qvals : qvalMap) :
  isCoveringIndex (newIndexInfo (desc v) (index v)) qvals = isCoveringIndex v qvals.
Proof.
  unfold isCoveringIndex. simpl. case_decide; [done|].
  generalize ((map_to_list qvals).*1). intros l. induction l as [|c l IH]; simpl; [done|].
  destruct (deref (desc v) (index v)); simpl; [|done].
  by rewrite IH.
Qed.

End Covering.

(** X7.  Unless the scan names a secondary index, [selectIndex] never
    commits an index that does not cover the referenced columns: the
    primary index is always a candidate, it covers every query, and its
    cost is below [math.MaxFloat64], the cost of a candidate that does not
    cover.  The lengths of the descriptor's slices are Go [int]s. *)
Theorem selectIndex_commits_a_covering_index `{Collaborators}
    (s s' : scanNode) (d : TableDescriptor) (f : Expr) :
  SortContract ->
  isSecondaryIndex s = false ->
  s_desc s = Some d -> filter s = Some f ->
  len (tbl_Columns d) < 2 ^ 63 ->
  len (idx_ColumnIDs (tbl_PrimaryIndex d)) < 2 ^ 63 ->
  selectIndex s = Ok s' ->
  isCoveringIndex (newIndexInfo d (s_index s')) (qvals s) = Ok true.
Proof.
  intros Hsort Hsec Hd Hf Hcols Hpk Hsel.
  destruct (selectIndex_inv s s' d f Hd Hf Hsel)
    as (m & analysed & c0 & rest & Hm & Ha & Hs & _ & _ & Hi & _).
  destruct (sorted_head_least analysed c0 rest Hsort Hs) as [Hin Hleast].
  apply analyzeAll_Forall2 in Ha.
  unfold candidatesOf in Ha. rewrite Hsec in Ha.
  (* The primary candidate is analysed first and is cheap. *)
  inversion Ha as [|cp cp' cs cs' Hcp Hcs]; subst.
  assert (cost cp' < MaxFloat64)%Q as Hcheap.
  { apply (covering_cost_lt_MaxFloat64 (newIndexInfo d PrimaryIndexRef) cp'
             (qvals s) m (tbl_PrimaryIndex d)); try done. }
  (* The committed candidate is the analysis of a candidate of the table. *)
  apply list_elem_of_lookup in Hin as [i Hi0].
  destruct (Forall2_lookup_r _ _ _ _ _ Ha Hi0) as (c & Hc & Hc0).
  assert (desc c = d) as Hdc.
  { destruct i as [|i]; simpl in Hc; [by injection Hc as <-|].
    apply list_lookup_fmap_Some in Hc as (k & -> & _). done. }
  pose proof (analyzeRanges_index _ _ _ _ Hc0) as [_ Hic].
  rewrite Hi, Hic, <- Hdc, isCoveringIndex_newIndexInfo.
  unfold analyzeRanges in Hc0.
  destruct (isCoveringIndex c (qvals s)) as [[]|]; simpl in Hc0; [done| |done].
  injection Hc0 as <-. 
  exfalso. eapply Qlt_not_le; [exact Hcheap|].
  apply (Hleast cp'). left.
Qed.

(** ** Disjunctions *)

Section Disjunction.
Context `{Collaborators}.

(** The bound of one side that the [OrExpr] case computes for a column both
    disjuncts constrain: the union of the two bounds when both carry a
    value, the empty bound otherwise. *)
Definition mergedBound (start : bool) (l r : qvalueInfo) : result qvalueInfo :=
  if negb (isNil (datum l)) && negb (isNil (datum r)) then union l r start
  else Ok qvalueInfo_zero.

(** The entry written for such a column, if any. *)
Definition mergedRange (l r : qvalueRange) : result (option qvalueRange) :=
  s ← mergedBound true (start l) (start r);
  e ← mergedBound false (end_ l) (end_ r);
  Ok (if negb (isNil (datum s)) || negb (isNil (datum e))
      then Some {| start := s; end_ := e |}
      else None).

Lemma orMerge_mergedRange (right : qvalueRangeMap) (id : N) (lRange : qvalueRange)
    (m : qvalueRangeMap) :
  orMerge right id lRange m =
    match right !! id with
    | None => Ok m
    | Some rRange =>
        x ← mergedRange lRange rRange;
        Ok (match x with Some r => <[id := r]> m | None => m end)
    end.
Proof.
  unfold orMerge, mergedRange, mergedBound.
  destruct (right !! id) as [rRange|]; [|done].
  destruct (if negb (isNil (datum (start lRange))) && _ then _ else _) as [s|]; [|done].
  simpl.
  destruct (if negb (isNil (datum (end_ lRange))) && _ then _ else _) as [e|]; [|done].
  simpl. by destruct (negb (isNil (datum s)) || negb (isNil (datum e))).
Qed.

(** What the loop over [left] has done to the target table [m] once it has
    walked the table [left]. *)
Definition orMerged (left right m : qvalueRangeMap) (res : result qvalueRangeMap)
    : Prop :=
  match res with
  | Ok m' =>
      forall id,
        match left !! id, right !! id with
        | Some l, Some r =>
            exists x, mergedRange l r = Ok x /\
              m' !! id = match x with Some rr => Some rr | None => m !! id end
        | _, _ => m' !! id = m !! id
        end
  | Panic p =>
      exists id l r, left !! id = Some l /\ right !! id = Some r /\
        mergedRange l r = Panic p
  end.

Lemma orMergeAll_orMerged (left right m : qvalueRangeMap) :
  orMerged left right m (orMergeAll left right m).
Proof.
  unfold orMergeAll.
  apply (map_fold_weak_ind (fun res left => orMerged left right m res)).
  - intros id. by rewrite lookup_empty.
  - intros i x left' res Hi IH. destruct res as [m'|p]; simpl in *.
    + rewrite orMerge_mergedRange.
      destruct (right !! i) as [rRange|] eqn:Hr.
      * destruct (mergedRange x rRange) as [y|p] eqn:Hy; simpl.
        -- intros id. destruct (decide (id = i)) as [->|Hne].
           ++ rewrite lookup_insert_eq, Hr. exists y. split; [done|].
              specialize (IH i). rewrite Hi in IH.
              destruct y; [by rewrite lookup_insert_eq|done].
           ++ rewrite lookup_insert_ne by done. specialize (IH id).
              destruct y; [by rewrite lookup_insert_ne|done].
        -- exists i, x, rRange. by rewrite lookup_insert_eq.
      * intros id. destruct (decide (id = i)) as [->|Hne].
        -- rewrite lookup_insert_eq, Hr. specialize (IH i). by rewrite Hi in IH.
        -- rewrite lookup_insert_ne by done. apply IH.
    + destruct IH as (id & l & r & Hl & Hr & Hp).
      exists id, l, r. split_and!; [|done|done].
      rewrite lookup_insert_ne; [done|]. intros ->. congruence.
Qed.

End Disjunction.

(** X8.  The [OrExpr] case analyses each disjunct on a table of its own and
    merges the two tables into the target table column by column.  A column
    that both disjuncts constrain gets a merged entry: its lower bound is
    the union of the two lower bounds when both disjuncts have one and is
    absent otherwise, and likewise its upper bound; if neither bound
    results the target's entry is left alone, otherwise the merged entry
    replaces whatever the target had for the column.  A column that one
    disjunct does not constrain keeps the target's entry.  The merge panics
    only if a union on a column of both tables does. *)
Theorem or_merge_rule `{Collaborators} (m : qvalueRangeMap) (l r : Expr)
    (left_ right_ : qvalueRangeMap) :
  analyzeExpr ∅ l = Ok left_ ->
  analyzeExpr ∅ r = Ok right_ ->
  match analyzeExpr m (OrExpr l r) with
  | Ok m' =>
      forall id,
        match left_ !! id, right_ !! id with
        | Some lRange, Some rRange =>
            exists s e,
              (if negb (isNil (datum (start lRange))) &&
                  negb (isNil (datum (start rRange)))
               then union (start lRange) (start rRange) true
               else Ok qvalueInfo_zero) = Ok s /\
              (if negb (isNil (datum (end_ lRange))) &&
                  negb (isNil (datum (end_ rRange)))
               then union (end_ lRange) (end_ rRange) false
               else Ok qvalueInfo_zero) = Ok e /\
              m' !! id =
                if negb (isNil (datum s)) || negb (isNil (datum e))
                then Some {| start := s; end_ := e |}
                else m !! id
        | _, _ => m' !! id = m !! id
        end
  | Panic p =>
      exists id lRange rRange,
        left_ !! id = Some lRange /\ right_ !! id = Some rRange /\
        (union (start lRange) (start rRange) true = Panic p \/
         union (end_ lRange) (end_ rRange) false = Panic p)
  end.
Proof.
  intros Hl Hr. rewrite analyzeExpr_equation_2, Hl, Hr.
  pose proof (orMergeAll_orMerged left_ right_ m) as Hspec.
  destruct (orMergeAll left_ right_ m) as [m'|p]; simpl in Hspec.
  - intros id. specialize (Hspec id).
    destruct (left_ !! id) as [lRange|]; [|done].
    destruct (right_ !! id) as [rRange|]; [|done].
    destruct Hspec as (x & Hx & Hm'). unfold mergedRange, mergedBound in Hx.
    destruct (if negb (isNil (datum (start lRange))) && _ then _ else _) as [s|]; [|done].
    simpl in Hx.
    destruct (if negb (isNil (datum (end_ lRange))) && _ then _ else _) as [e|]; [|done].
    simpl in Hx. injection Hx as <-. exists s, e. split_and!; [done|done|].
    rewrite Hm'. by destruct (negb (isNil (datum s)) || negb (isNil (datum e))).
  - destruct Hspec as (id & lRange & rRange & Hll & Hrr & Hp).
    exists id, lRange, rRange. split_and!; [done|done|].
    unfold mergedRange, mergedBound in Hp.
    destruct (negb (isNil (datum (start lRange))) && _); simpl in Hp.
    + destruct (union (start lRange) (start rRange) true) as [s|p'] eqn:Hs;
        simpl in Hp; [|left; congruence].
      destruct (negb (isNil (datum (end_ lRange))) && _); simpl in Hp; [|done].
      destruct (union (end_ lRange) (end_ rRange) false) as [e|p'] eqn:He;
        simpl in Hp; [done|right; congruence].
    + destruct (negb (isNil (datum (end_ lRange))) && _); simpl in Hp; [|done].
      destruct (union (end_ lRange) (end_ rRange) false) as [e|p'] eqn:He;
        simpl in Hp; [done|right; congruence].
Qed.

(** ** Disjunctions that constrain nothing *)

Section OneSided.
Context `{Collaborators}.

Definition lacksStart (m : qvalueRangeMap) : Prop :=
  forall k r, m !! k = Some r -> datum (start r) = None.

Definition lacksEnd (m : qvalueRangeMap) : Prop :=
  forall k r, m !! k = Some r -> datum (end_ r) = None.

Lemma orMergeAll_one_sided (left right m : qvalueRangeMap) :
  (lacksStart left /\ lacksEnd right) \/ (lacksEnd left /\ lacksStart right) ->
  orMergeAll left right m = Ok m.
Proof.
  intros Hside.
  assert (forall id l r, left !! id = Some l -> right !! id = Some r ->
            mergedRange l r = Ok None) as Hnone.
  { intros id l r Hl Hr. unfold mergedRange, mergedBound.
    destruct Hside as [[Hs He]|[He Hs]].
    - rewrite (Hs id l Hl), (He id r Hr). simpl. by rewrite andb_false_r.
    - rewrite (He id l Hl), (Hs id r Hr). simpl. by rewrite andb_false_r. }
  pose proof (orMergeAll_orMerged left right m) as Hspec.
  destruct (orMergeAll left right m) as [m'|p]; simpl in Hspec.
  - f_equal. apply map_eq. intros id. specialize (Hspec id).
    destruct (left !! id) as [l|] eqn:Hl; [|done].
    destruct (right !! id) as [r|] eqn:Hr; [|done].
    destruct Hspec as (x & Hx & Hm'). rewrite (Hnone id l r Hl Hr) in Hx.
    by injection Hx as <-.
  - destruct Hspec as (id & l & r & Hl & Hr & Hp).
    by rewrite (Hnone id l r Hl Hr) in Hp.
Qed.

Lemma lacksStart_empty : lacksStart ∅.
Proof. intros k r. by rewrite lookup_empty. Qed.

Lemma lacksEnd_empty : lacksEnd ∅.
Proof. intros k r. by rewrite lookup_empty. Qed.

(** A comparison with an upper-bound operator, analysed on an empty table,
    leaves entries with no lower bound, and the other way round. *)
Lemma restrict_empty (qv : qvalue) (c : Expr) (o : parser.ComparisonOp) :
  exists m1, restrict ∅ qv c o = Ok m1 /\
    (conforming false o = true -> lacksStart m1) /\
    (conforming true o = true -> lacksEnd m1).
Proof.
  unfold restrict. destruct (EvalExpr c) as [d|].
  2:{ exists ∅. split_and!; [done|intros _; apply lacksStart_empty
                             |intros _; apply lacksEnd_empty]. }
  destruct (convertDatum (col qv) d); simpl.
  2:{ exists ∅. split_and!; [done|intros _; apply lacksStart_empty
                             |intros _; apply lacksEnd_empty]. }
  unfold getRange. rewrite lookup_empty.
  destruct o; simpl; (eexists; split; [reflexivity|]); split; try done;
    intros _ k r; rewrite insert_empty;
    intros [<- <-]%lookup_singleton_Some; done.
Qed.

Lemma analyzeComparisonExpr_empty_qvalue (o : parser.ComparisonOp) (qv : qvalue)
    (c : Expr) :
  exists m1, analyzeComparisonExpr ∅ o (Qvalue qv) c = Ok m1 /\
    (conforming false o = true -> lacksStart m1) /\
    (conforming true o = true -> lacksEnd m1).
Proof.
  unfold analyzeComparisonExpr.
  destruct (restrict_empty qv c o) as (m1 & Hm1 & Hs & He).
  destruct o; simpl; try (exists ∅; split_and!; [done|done|done]);
    (destruct (isConst c); simpl;
     [exists m1; by split_and!
     |exists ∅; split_and!; [done|intros _; apply lacksStart_empty
                            |intros _; apply lacksEnd_empty]]).
Qed.

Lemma analyzeComparisonExpr_empty_other (o : parser.ComparisonOp) (l c : Expr) :
  (forall qv, l <> Qvalue qv) ->
  exists m1, analyzeComparisonExpr ∅ o l c = Ok m1 /\
    (conforming false o = true -> lacksEnd m1) /\
    (conforming true o = true -> lacksStart m1).
Proof.
  intros Hl. unfold analyzeComparisonExpr.
  assert (exists m1,
            match c with
            | Qvalue qval =>
                if negb (isConst l) then Ok ∅ else restrict ∅ qval l (invertOp o)
            | _ => Ok ∅
            end = Ok m1 /\
            (conforming false o = true -> lacksEnd m1) /\
            (conforming true o = true -> lacksStart m1)) as (m1 & Hm1 & Hs & He).
  { destruct c as [| | | | | |qv|];
      try (exists ∅; split_and!; [done|intros _; apply lacksEnd_empty
                                 |intros _; apply lacksStart_empty]).
    destruct (isConst l); simpl.
    - destruct (restrict_empty qv l (invertOp o)) as (m1 & Hm1 & Hs & He).
      exists m1. split_and!; [done| |].
      + intros Ho. apply He. by destruct o.
      + intros Ho. apply Hs. by destruct o.
    - exists ∅. split_and!; [done|intros _; apply lacksEnd_empty
                             |intros _; apply lacksStart_empty]. }
  destruct o; try (exists ∅; split_and!; done);
    (destruct l; try (by (exfalso; eapply Hl)); exists m1; by split_and!).
Qed.

End OneSided.

(** X9.  A disjunction of an upper bound and a lower bound on the same
    operand constrains nothing: [analyzeExpr] returns the table it was
    given, and does not panic.  In particular [a NOT BETWEEN b AND c],
    which is analysed as [a < b OR a > c], never narrows the scan. *)
Theorem not_between_leaves_the_table_unchanged `{Collaborators}
    (m : qvalueRangeMap) (l from to : Expr) :
  analyzeExpr m (RangeCond true l from to) = Ok m /\
  (forall o1 o2, conforming false o1 = true -> conforming true o2 = true ->
     analyzeExpr m (OrExpr (ComparisonExpr o1 l from) (ComparisonExpr o2 l to)) = Ok m).
Proof.
  assert (forall o1 o2, conforming false o1 = true -> conforming true o2 = true ->
     analyzeExpr m (OrExpr (ComparisonExpr o1 l from) (ComparisonExpr o2 l to)) = Ok m)
    as Hor.
  { intros o1 o2 Ho1 Ho2. rewrite analyzeExpr_equation_2, !analyzeExpr_equation_5.
    assert ((exists qv, l = Qvalue qv) \/ (forall qv, l <> Qvalue qv)) as [[qv ->]|Hl].
    { destruct l; try (right; intros ?; discriminate). left. by eexists. }
    - destruct (analyzeComparisonExpr_empty_qvalue o1 qv from) as (m1 & -> & Hs1 & _).
      destruct (analyzeComparisonExpr_empty_qvalue o2 qv to) as (m2 & -> & _ & He2).
      apply orMergeAll_one_sided. left. split; [by apply Hs1|by apply He2].
    - destruct (analyzeComparisonExpr_empty_other o1 l from Hl) as (m1 & -> & He1 & _).
      destruct (analyzeComparisonExpr_empty_other o2 l to Hl) as (m2 & -> & _ & Hs2).
      apply orMergeAll_one_sided. right. split; [by apply He1|by apply Hs2]. }
  split; [|exact Hor]. rewrite analyzeExpr_equation_6. by apply Hor.
Qed.

(** ** What the analyzer keeps true of the table *)

(** A bound as the analyzer leaves it: the zero value, or a value with an
    operator of its side. *)
Definition wfBound `{Collaborators} (start : bool) (q : qvalueInfo) : bool :=
  match datum q with
  | None => bool_decide (op q = parser.EQ)
  | Some _ => conforming start (op q)
  end.

Definition wfRange `{Collaborators} (r : qvalueRange) : bool :=
  wfBound true (start r) && wfBound false (end_ r).

Definition wfMap `{Collaborators} (m : qvalueRangeMap) : Prop :=
  forall k r, m !! k = Some r -> wfRange r = true.

(** A result that is a value with the property [P], or the panic of the
    encoder on a value it rejects. *)
Definition fine `{Collaborators} {A} (res : result A) (P : A -> Prop) : Prop :=
  match res with
  | Ok a => P a
  | Panic p => p = EncodeError /\ exists d, encodeTableKey [] (Some d) = None
  end.

Section Invariant.
Context `{Collaborators}.

Lemma fine_bind {A B} (r : result A) (f : A -> result B) (P : A -> Prop)
    (Q : B -> Prop) :
  fine r P -> (forall a, P a -> fine (f a) Q) -> fine (r ≫= f) Q.
Proof. destruct r as [a|p]; simpl; [|done]. intros Ha Hf. by apply Hf. Qed.

Lemma fine_impl {A} (r : result A) (P Q : A -> Prop) :
  fine r P -> (forall a, P a -> Q a) -> fine r Q.
Proof. destruct r as [a|p]; simpl; [|done]. intros Ha Hf. by apply Hf. Qed.

Lemma compare_fine (q : qvalueInfo) (dq dn : Datum) :
  datum q = Some dq -> fine (compare q (Some dn)) (fun _ => True).
Proof.
  intros Hq. unfold compare, encodeOrPanic. rewrite Hq.
  destruct (encodeTableKey [] (Some dq)) eqn:Eq; simpl; [|by eauto].
  destruct (encodeTableKey [] (Some dn)) eqn:En; simpl; [done|by eauto].
Qed.

Lemma wfBound_zero (start : bool) : wfBound start qvalueInfo_zero = true.
Proof. done. Qed.

Lemma intersect_fine (q n : qvalueInfo) (start : bool) (dn : Datum) :
  wfBound start q = true -> datum n = Some dn -> conforming start (op n) = true ->
  fine (intersect q n start) (fun q' => wfBound start q' = true).
Proof.
  intros Hq Hn Hc. unfold intersect. rewrite (assert_conforming _ _ Hc). simpl.
  assert (wfBound start n = true) as Hwn by (unfold wfBound; by rewrite Hn).
  destruct (datum q) as [dq|] eqn:Hdq; simpl; [|done].
  rewrite Hn. eapply fine_bind; [by apply (compare_fine q dq dn)|].
  intros c _. simpl.
  destruct (c =? _); [done|]. destruct (c =? 0); [|done].
  destruct (op n) eqn:Hop; try done;
    unfold wfBound; simpl; rewrite Hdq; by destruct start.
Qed.

Lemma union_fine (q n : qvalueInfo) (start : bool) (dn : Datum) :
  wfBound start q = true -> datum n = Some dn -> conforming start (op n) = true ->
  fine (union q n start) (fun q' => wfBound start q' = true).
Proof.
  intros Hq Hn Hc. unfold union. rewrite (assert_conforming _ _ Hc). simpl.
  assert (wfBound start n = true) as Hwn by (unfold wfBound; by rewrite Hn).
  destruct (datum q) as [dq|] eqn:Hdq; simpl; [|done].
  rewrite Hn. eapply fine_bind; [by apply (compare_fine q dq dn)|].
  intros c _. simpl.
  destruct (c =? _); [done|]. destruct (c =? 0); [|done].
  destruct (op n) eqn:Hop; try done;
    unfold wfBound; simpl; rewrite Hdq; by destruct start.
Qed.

Lemma getRange_wf (m : qvalueRangeMap) (k : N) :
  wfMap m -> wfRange (getRange m k) = true.
Proof.
  intros Hm. unfold getRange. destruct (m !! k) as [r|] eqn:Hr; [|done].
  by apply (Hm k).
Qed.

Lemma wfMap_insert (m : qvalueRangeMap) (k : N) (r : qvalueRange) :
  wfMap m -> wfRange r = true -> wfMap (<[k := r]> m).
Proof.
  intros Hm Hr k' r'. destruct (decide (k' = k)) as [->|Hne].
  - rewrite lookup_insert_eq. by intros [= <-].
  - rewrite lookup_insert_ne by done. apply Hm.
Qed.

Lemma wfMap_empty : wfMap ∅.
Proof. intros k r. by rewrite lookup_empty. Qed.

Lemma restrict_fine (m : qvalueRangeMap) (qv : qvalue) (c : Expr)
    (o : parser.ComparisonOp) :
  wfMap m -> fine (restrict m qv c o) wfMap.
Proof.
  intros Hm. unfold restrict. destruct (EvalExpr c) as [d|]; [|done].
  destruct (convertDatum (col qv) d); simpl; [|done].
  pose proof (getRange_wf m (col_ID (col qv)) Hm) as Hr.
  apply andb_true_iff in Hr as [Hs He].
  eapply (fine_bind _ _ (fun s => wfBound true s = true)).
  { destruct o; try done; by eapply intersect_fine. }
  intros s Hs'.
  eapply (fine_bind _ _ (fun e => wfBound false e = true)).
  { destruct o; try done; by eapply intersect_fine. }
  intros e He'. simpl. apply wfMap_insert; [done|].
  unfold wfRange. simpl. by rewrite Hs', He'.
Qed.

Lemma analyzeComparisonExpr_fine (m : qvalueRangeMap) (o : parser.ComparisonOp)
    (l r : Expr) :
  wfMap m -> fine (analyzeComparisonExpr m o l r) wfMap.
Proof.
  intros Hm. unfold analyzeComparisonExpr.
  destruct o; try done;
    destruct l; try (destruct r; try done);
    repeat case_match; try done; by apply restrict_fine.
Qed.

Lemma mergedBound_fine (start : bool) (l r : qvalueInfo) :
  wfBound start l = true -> wfBound start r = true ->
  fine (mergedBound start l r) (fun q => wfBound start q = true).
Proof.
  intros Hl Hr. unfold mergedBound.
  destruct (datum l) as [dl|] eqn:Hdl; simpl; [|done].
  destruct (datum r) as [dr|] eqn:Hdr; simpl; [|done].
  eapply union_fine; [done|done|]. unfold wfBound in Hr. by rewrite Hdr in Hr.
Qed.

Lemma mergedRange_fine (l r : qvalueRange) :
  wfRange l = true -> wfRange r = true ->
  fine (mergedRange l r)
    (fun x => match x with Some rr => wfRange rr = true | None => True end).
Proof.
  intros [Hls Hle]%andb_true_iff [Hrs Hre]%andb_true_iff. unfold mergedRange.
  eapply fine_bind; [by apply mergedBound_fine|]. intros s Hs.
  eapply fine_bind; [by apply mergedBound_fine|]. intros e He. simpl.
  destruct (negb (isNil (datum s)) || negb (isNil (datum e))); [|done].
  unfold wfRange. simpl. by rewrite Hs, He.
Qed.

Lemma orMergeAll_fine (left right m : qvalueRangeMap) :
  wfMap left -> wfMap right -> wfMap m -> fine (orMergeAll left right m) wfMap.
Proof.
  intros Hl Hr Hm. pose proof (orMergeAll_orMerged left right m) as Hspec.
  destruct (orMergeAll left right m) as [m'|p]; simpl in *.
  - intros k rr Hk. specialize (Hspec k).
    destruct (left !! k) as [lk|] eqn:Hlk; [|rewrite Hspec in Hk; by apply (Hm k)].
    destruct (right !! k) as [rk|] eqn:Hrk; [|rewrite Hspec in Hk; by apply (Hm k)].
    destruct Hspec as (x & Hx & Hm').
    pose proof (mergedRange_fine lk rk (Hl k lk Hlk) (Hr k rk Hrk)) as Hf.
    rewrite Hx in Hf. simpl in Hf. rewrite Hm' in Hk.
    destruct x as [x|]; [by injection Hk as <-|by apply (Hm k)].
  - destruct Hspec as (k & lk & rk & Hlk & Hrk & Hp).
    pose proof (mergedRange_fine lk rk (Hl k lk Hlk) (Hr k rk Hrk)) as Hf.
    by rewrite Hp in Hf.
Qed.

Lemma analyzeExpr_fine (m : qvalueRangeMap) (expr : Expr) :
  wfMap m -> fine (analyzeExpr m expr) wfMap.
Proof.
  remember (weight expr) as n eqn:Hn. revert m expr Hn.
  induction n as [n IH] using lt_wf_ind. intros m expr -> Hm.
  destruct expr as [l r|l r|e|e|o l r|[] l from to|q|o].
  - rewrite analyzeExpr_equation_1.
    pose proof (IH (weight l) ltac:(simpl; lia) m l eq_refl Hm) as Hl.
    destruct (analyzeExpr m l) as [m1|p]; simpl in Hl; [|done].
    apply (IH (weight r) ltac:(simpl; lia) m1 r eq_refl Hl).
  - rewrite analyzeExpr_equation_2.
    pose proof (IH (weight l) ltac:(simpl; lia) ∅ l eq_refl wfMap_empty) as Hl.
    destruct (analyzeExpr ∅ l) as [left_|p]; simpl in Hl; [|done].
    pose proof (IH (weight r) ltac:(simpl; lia) ∅ r eq_refl wfMap_empty) as Hr.
    destruct (analyzeExpr ∅ r) as [right_|p]; simpl in Hr; [|done].
    by apply orMergeAll_fine.
  - by rewrite analyzeExpr_equation_3.
  - rewrite analyzeExpr_equation_4.
    apply (IH (weight e) ltac:(simpl; lia) m e eq_refl Hm).
  - rewrite analyzeExpr_equation_5. by apply analyzeComparisonExpr_fine.
  - rewrite analyzeExpr_equation_6. by apply (IH 3%nat ltac:(simpl; lia)).
  - rewrite analyzeExpr_equation_7. by apply (IH 3%nat ltac:(simpl; lia)).
  - by rewrite analyzeExpr_equation_8.
  - by rewrite analyzeExpr_equation_9.
Qed.

End Invariant.

(** X10.  The analyzer keeps the bounds of the range table well formed and
    never trips the operator assertions.  From a table in which every
    bound is the zero value or a value with an operator of its side ([>=],
    [>] for a start, [<=], [<] for an end), [analyzeExpr] returns a table
    with the same property; the only panic it can raise is the one of the
    table-key encoder, and then there is a value the encoder rejects. *)
Theorem analyzer_keeps_bounds_well_formed `{Collaborators}
    (m : qvalueRangeMap) (expr : Expr) :
  (forall k r, m !! k = Some r -> wfRange r = true) ->
  match analyzeExpr m expr with
  | Ok m' => forall k r, m' !! k = Some r -> wfRange r = true
  | Panic p => p = EncodeError /\ exists d, encodeTableKey [] (Some d) = None
  end.
Proof. apply analyzeExpr_fine. Qed.

(** ** The entries the analyzer touches *)

Definition qvalueColumn `{Values} (e : Expr) : list N :=
  match e with
  | Qvalue q => [col_ID (col q)]
  | _ => []
  end.

(** The columns a filter compares with something: the qvalues that are an
    operand of a comparison or of a range condition, under conjunctions,
    disjunctions and parentheses. *)
Fixpoint comparedColumns `{Values} (e : Expr) : list N :=
  match e with
  | AndExpr l r | OrExpr l r => comparedColumns l ++ comparedColumns r
  | ParenExpr e => comparedColumns e
  | ComparisonExpr _ l r => qvalueColumn l ++ qvalueColumn r
  | RangeCond _ l from to => qvalueColumn l ++ qvalueColumn from ++ qvalueColumn to
  | _ => []
  end.

(** [m'] has every entry of [m], and the same entry as [m] for every column
    outside [cols]. *)
Definition touchesOnly `{Collaborators} (cols : list N) (m m' : qvalueRangeMap) : Prop :=
  (forall k, k ∉ cols -> m' !! k = m !! k) /\
  (forall k, is_Some (m !! k) -> is_Some (m' !! k)).

Section Frame.
Context `{Collaborators}.

Lemma bind_Ok_inv {A B} (r : result A) (f : A -> result B) (b : B) :
  r ≫= f = Ok b -> exists a, r = Ok a /\ f a = Ok b.
Proof. destruct r as [a|p]; [|done]. intros Hf. by exists a. Qed.

Lemma touchesOnly_refl (cols : list N) (m : qvalueRangeMap) : touchesOnly cols m m.
Proof. by split. Qed.

Lemma touchesOnly_trans (c1 c2 : list N) (m1 m2 m3 : qvalueRangeMap) :
  touchesOnly c1 m1 m2 -> touchesOnly c2 m2 m3 -> touchesOnly (c1 ++ c2) m1 m3.
Proof.
  intros [Hf1 Hd1] [Hf2 Hd2]. split.
  - intros k Hk. rewrite elem_of_app in Hk.
    rewrite Hf2, Hf1; [done| |]; intros ?; apply Hk; auto.
  - intros k Hk. by apply Hd2, Hd1.
Qed.

Lemma touchesOnly_weaken (c c' : list N) (m m' : qvalueRangeMap) :
  (forall k, k ∈ c -> k ∈ c') -> touchesOnly c m m' -> touchesOnly c' m m'.
Proof. intros Hsub [Hf Hd]. split; [|done]. intros k Hk. apply Hf. auto. Qed.

Lemma restrict_touches (m m' : qvalueRangeMap) (qv : qvalue) (c : Expr)
    (o : parser.ComparisonOp) :
  restrict m qv c o = Ok m' -> touchesOnly [col_ID (col qv)] m m'.
Proof.
  unfold restrict. destruct (EvalExpr c) as [d|]; [|intros [= <-]; apply touchesOnly_refl].
  destruct (convertDatum (col qv) d); simpl; [|intros [= <-]; apply touchesOnly_refl].
  intros (s & _ & (e & _ & [= <-])%bind_Ok_inv)%bind_Ok_inv. split.
  - intros k Hk. rewrite lookup_insert_ne; [done|]. intros <-. apply Hk. left.
  - intros k Hk. destruct (decide (k = col_ID (col qv))) as [->|Hne].
    + rewrite lookup_insert_eq. by eexists.
    + by rewrite lookup_insert_ne.
Qed.

Lemma analyzeComparisonExpr_touches (m m' : qvalueRangeMap)
    (o : parser.ComparisonOp) (l r : Expr) :
  analyzeComparisonExpr m o l r = Ok m' ->
  touchesOnly (qvalueColumn l ++ qvalueColumn r) m m'.
Proof.
  unfold analyzeComparisonExpr. intros Hm'.
  assert (m' = m \/
          (exists qv c o', l = Qvalue qv /\ restrict m qv c o' = Ok m') \/
          (exists qv c o', r = Qvalue qv /\ restrict m qv c o' = Ok m'))
    as [->|[(qv & c & o' & -> & Hr)|(qv & c & o' & -> & Hr)]].
  { destruct o; try (left; congruence);
      destruct l; try (destruct r; try (left; congruence));
      repeat case_match; try (left; congruence); eauto 10. }
  - apply touchesOnly_refl.
  - eapply touchesOnly_weaken; [|by eapply restrict_touches].
    intros k Hk. apply elem_of_app. by left.
  - eapply touchesOnly_weaken; [|by eapply restrict_touches].
    intros k Hk. apply elem_of_app. by right.
Qed.

Lemma orMergeAll_touches (left right m m' : qvalueRangeMap) (cols : list N) :
  (forall k, k ∉ cols -> left !! k = None) ->
  orMergeAll left right m = Ok m' -> touchesOnly cols m m'.
Proof.
  intros Hleft Hm'. pose proof (orMergeAll_orMerged left right m) as Hspec.
  rewrite Hm' in Hspec. simpl in Hspec. split.
  - intros k Hk. specialize (Hspec k). by rewrite (Hleft k Hk) in Hspec.
  - intros k Hk. specialize (Hspec k).
    destruct (left !! k); [|by rewrite Hspec].
    destruct (right !! k); [|by rewrite Hspec].
    destruct Hspec as (x & _ & ->). by destruct x.
Qed.

Lemma analyzeExpr_touches (m m' : qvalueRangeMap) (expr : Expr) :
  analyzeExpr m expr = Ok m' -> touchesOnly (comparedColumns expr) m m'.
Proof.
  remember (weight expr) as n eqn:Hn. revert m m' expr Hn.
  induction n as [n IH] using lt_wf_ind. intros m m' expr ->.
  destruct expr as [l r|l r|e|e|o l r|[] l from to|q|o].
  - rewrite analyzeExpr_equation_1.
    destruct (analyzeExpr m l) as [m1|p] eqn:Hl; [|done]. intros Hr. simpl.
    eapply touchesOnly_trans.
    + by apply (IH (weight l) ltac:(simpl; lia) m m1 l eq_refl).
    + by apply (IH (weight r) ltac:(simpl; lia) m1 m' r eq_refl).
  - rewrite analyzeExpr_equation_2.
    destruct (analyzeExpr ∅ l) as [left_|p] eqn:Hl; [|done].
    destruct (analyzeExpr ∅ r) as [right_|p] eqn:Hr; [|done].
    intros Hm'. simpl. eapply touchesOnly_weaken; [|eapply orMergeAll_touches; [|done]].
    + intros k Hk. apply elem_of_app. left. exact Hk.
    + intros k Hk.
      destruct (IH (weight l) ltac:(simpl; lia) ∅ left_ l eq_refl Hl) as [Hf _].
      by rewrite (Hf k Hk), lookup_empty.
  - rewrite analyzeExpr_equation_3. intros [= <-]. apply touchesOnly_refl.
  - rewrite analyzeExpr_equation_4. simpl.
    apply (IH (weight e) ltac:(simpl; lia) m m' e eq_refl).
  - rewrite analyzeExpr_equation_5. apply analyzeComparisonExpr_touches.
  - rewrite analyzeExpr_equation_6. intros Hm'.
    apply (IH 3%nat ltac:(simpl; lia)) in Hm'; [|done]. simpl in Hm'.
    eapply touchesOnly_weaken; [|exact Hm']. simpl. intros k.
    rewrite !elem_of_app. tauto.
  - rewrite analyzeExpr_equation_7. intros Hm'.
    apply (IH 3%nat ltac:(simpl; lia)) in Hm'; [|done]. simpl in Hm'.
    eapply touchesOnly_weaken; [|exact Hm']. simpl. intros k.
    rewrite !elem_of_app. tauto.
  - rewrite analyzeExpr_equation_8. intros [= <-]. apply touchesOnly_refl.
  - rewrite analyzeExpr_equation_9. intros [= <-]. apply touchesOnly_refl.
Qed.

End Frame.

(** X11.  The analyzer touches only the entries of the columns the filter
    compares, and never removes an entry: when [analyzeExpr] returns, a
    column that is not an operand of a comparison or of a range condition
    of the filter has the entry it had before, and every column that had
    an entry still has one.  A disjunction touches only columns its first
    disjunct compares. *)
Theorem analyzer_touches_only_compared_columns `{Collaborators}
    (m m' : qvalueRangeMap) (expr : Expr) :
  analyzeExpr m expr = Ok m' ->
  (forall k, k ∉ comparedColumns expr -> m' !! k = m !! k) /\
  (forall k, is_Some (m !! k) -> is_Some (m' !! k)).
Proof. apply analyzeExpr_touches. Qed.

(** ** Comparisons written with the constant first *)


(** ** Constant expressions *)

Section IsConst.
Context `{Collaborators}.

Lemma fold_Visit (l : list Expr) (v : bool) :
  fold_left Visit l v = v && forallb (fun e => negb (isDReference e)) l.
Proof.
  revert v. induction l as [|e l IH]; intros v; simpl; [by rewrite andb_true_r|].
  rewrite IH. unfold Visit. destruct v; simpl; [|done].
  by destruct (isDReference e).
Qed.

End IsConst.

(** X13.  [isConst] answers [true] exactly when none of the nodes that
    [parser.WalkExpr] hands to the visitor is a [DReference]; the visitor's
    flag, once cleared, stays cleared whatever nodes follow. *)
Theorem isConst_iff_no_reference `{Collaborators} (expr : Expr) :
  (isConst expr = true <->
   forall e, e ∈ WalkExpr expr -> isDReference e = false) /\
  (forall l, fold_left Visit l false = false).
Proof.
  split.
  - unfold isConst. rewrite fold_Visit. simpl. rewrite forallb_forall. split.
    + intros Hall e He. apply list_elem_of_In in He. apply Hall in He.
      by apply negb_true_iff.
    + intros Hall e He. apply negb_true_iff. apply Hall. by apply list_elem_of_In.
  - intros l. by rewrite fold_Visit.
Qed.

(** ** Applying the same bound twice *)

Section Idempotent.
Context `{Collaborators}.

Lemma compare_same (n : qvalueInfo) (k : Key) :
  encodeTableKey [] (datum n) = Some k -> compare n (datum n) = Ok 0.
Proof.
  intros Hk. unfold compare, encodeOrPanic. rewrite Hk. simpl.
  by rewrite bytes_Compare_refl.
Qed.

Lemma compare_datum (q q' : qvalueInfo) (d : option Datum) :
  datum q' = datum q -> compare q' d = compare q d.
Proof. intros Hq. unfold compare. by rewrite Hq. Qed.

End Idempotent.

(** X14.  Restricting, or widening, by the same bound a second time changes
    nothing: if [intersect] turned [q] into [q'] on the candidate [n], then
    [intersect] on [q'] and [n] returns [q'] again, and likewise for
    [union].  The candidate's value has to be one the encoder accepts, as
    the second call compares it with itself. *)
Theorem same_bound_twice_changes_nothing `{Collaborators}
    (q n q' : qvalueInfo) (start : bool) :
  is_Some (encodeTableKey [] (datum n)) ->
  (intersect q n start = Ok q' -> intersect q' n start = Ok q') /\
  (union q n start = Ok q' -> union q' n start = Ok q').
Proof.
  intros [k Hk]. pose proof (compare_same n k Hk) as Hsame.
  assert (forall d o, datum n = d -> op n = o -> {| datum := d; op := o |} = n)
    as Heta by (intros d o <- <-; by destruct n).
  split.
  - unfold intersect.
    destruct (if start then assertStartOp n else assertEndOp n) as [[]|] eqn:Ha;
      simpl; [|done].
    destruct (isNil (datum q)) eqn:Hq.
    + intros [= <-]. rewrite Hsame. simpl.
      destruct (isNil (datum n)); [done|].
      destruct start; simpl; destruct (op n) eqn:Ho; try done; f_equal; by apply Heta.
    + destruct (compare q (datum n)) as [c|] eqn:Hc; simpl; [|done].
      destruct (c =? (if negb start then -1 else 1)) eqn:Hcmp.
      * intros [= <-]. rewrite Hsame. simpl.
        destruct (isNil (datum n)); [done|].
        destruct start; simpl; destruct (op n) eqn:Ho; try done; f_equal; by apply Heta.
      * destruct (c =? 0) eqn:Hc0.
        -- destruct (op n) eqn:Ho; intros [= <-]; simpl;
             rewrite ?Hq; simpl;
             try (rewrite Hc; simpl; rewrite Hcmp, Hc0; done);
             (rewrite (compare_datum q) by done; rewrite Hc; simpl;
              rewrite Hcmp, Hc0; done).
        -- intros [= <-]. rewrite Hq, Hc. simpl.
           by rewrite Hcmp, Hc0.
  - unfold union.
    destruct (if start then assertStartOp n else assertEndOp n) as [[]|] eqn:Ha;
      simpl; [|done].
    destruct (isNil (datum q)) eqn:Hq.
    + intros [= <-]. rewrite Hsame. simpl.
      destruct (isNil (datum n)); [done|].
      destruct start; simpl; destruct (op n) eqn:Ho; try done; f_equal; by apply Heta.
    + destruct (compare q (datum n)) as [c|] eqn:Hc; simpl; [|done].
      destruct (c =? (if negb start then 1 else -1)) eqn:Hcmp.
      * intros [= <-]. rewrite Hsame. simpl.
        destruct (isNil (datum n)); [done|].
        destruct start; simpl; destruct (op n) eqn:Ho; try done; f_equal; by apply Heta.
      * destruct (c =? 0) eqn:Hc0.
        -- destruct (op n) eqn:Ho; intros [= <-]; simpl;
             rewrite ?Hq; simpl;
             try (rewrite Hc; simpl; rewrite Hcmp, Hc0; done);
             (rewrite (compare_datum q) by done; rewrite Hc; simpl;
              rewrite Hcmp, Hc0; done).
        -- intros [= <-]. rewrite Hq, Hc. simpl.
           by rewrite Hcmp, Hc0.
Qed.

(** ** A column between two constants *)

Section StrictRange.
Context `{Collaborators}.

(** The range table of [q > lo AND q < hi]. *)
Lemma analyzeExpr_strict_range (qv : qvalue) (lo hi : Expr) (dlo dhi : Datum) :
  isConst lo = true -> isConst hi = true ->
  EvalExpr lo = Some dlo -> EvalExpr hi = Some dhi ->
  convertDatum (col qv) dlo = true -> convertDatum (col qv) dhi = true ->
  exists m,
    analyzeExpr ∅ (AndExpr (ComparisonExpr parser.GT (Qvalue qv) lo)
                           (ComparisonExpr parser.LT (Qvalue qv) hi)) = Ok m /\
    m !! col_ID (col qv) =
      Some {| start := {| datum := Some dlo; op := parser.GT |};
              end_ := {| datum := Some dhi; op := parser.LT |} |}.
Proof.
  intros Hclo Hchi Hlo Hhi Hvlo Hvhi.
  rewrite analyzeExpr_equation_1, analyzeExpr_equation_5.
  unfold analyzeComparisonExpr at 1. rewrite Hclo. simpl.
  unfold restrict at 1. rewrite Hlo, Hvlo. simpl.
  unfold getRange. rewrite lookup_empty. simpl.
  rewrite analyzeExpr_equation_5.
  unfold analyzeComparisonExpr. rewrite Hchi. simpl.
  unfold restrict. rewrite Hhi, Hvhi. simpl.
  unfold getRange. rewrite lookup_insert_eq. simpl.
  eexists. split; [reflexivity|]. by rewrite lookup_insert_eq.
Qed.

End StrictRange.

(** X15.  For the filter [q > lo AND q < hi], with [lo] and [hi] constants
    that evaluate to values of the column's type, and a covering index
    whose first key column is [q]: the candidate's start list is the one
    bound [> lo] and its end list the one bound [< hi], whatever the other
    key columns are; the start key is the key after the encoding of [lo]
    under the index prefix, and the end key is the encoding of [hi] under
    the index prefix, with no prefix end taken. *)
Theorem column_between_two_constants `{Collaborators} (v : indexInfo)
    (qvals : qvalMap) (qv : qvalue) (lo hi : Expr) (dlo dhi : Datum)
    (idx : IndexDescriptor) (rest : list N) :
  isConst lo = true -> isConst hi = true ->
  EvalExpr lo = Some dlo -> EvalExpr hi = Some dhi ->
  convertDatum (col qv) dlo = true -> convertDatum (col qv) dhi = true ->
  deref (desc v) (index v) = Ok idx ->
  idx_ColumnIDs idx = col_ID (col qv) :: rest ->
  isCoveringIndex v qvals = Ok true ->
  exists m v',
    analyzeExpr ∅ (AndExpr (ComparisonExpr parser.GT (Qvalue qv) lo)
                           (ComparisonExpr parser.LT (Qvalue qv) hi)) = Ok m /\
    analyzeRanges v qvals m = Ok v' /\
    v_start v' = [{| datum := Some dlo; op := parser.GT |}] /\
    v_end v' = [{| datum := Some dhi; op := parser.LT |}] /\
    makeStartKey v' =
      (k ← encodeOrPanic (MakeIndexKeyPrefix (tbl_ID (desc v)) (idx_ID idx)) (Some dlo);
       Ok (Key_Next k)) /\
    makeEndKey v' =
      (k ← encodeOrPanic (MakeIndexKeyPrefix (tbl_ID (desc v)) (idx_ID idx)) (Some dhi);
       Ok k).
Proof.
  intros Hclo Hchi Hlo Hhi Hvlo Hvhi Hidx Hcols Hcov.
  destruct (analyzeExpr_strict_range qv lo hi dlo dhi) as (m & Hm & Hentry); try done.
  exists m. eexists. split; [exact Hm|].
  rewrite (analyzeRanges_covering v qvals m idx Hcov Hidx). simpl.
  rewrite Hcols. simpl. rewrite Hentry. simpl.
  split; [reflexivity|]. simpl. split_and!; [done|done| |].
  - unfold makeStartKey. simpl. rewrite Hidx. simpl.
    by destruct (encodeOrPanic _ (Some dlo)).
  - unfold makeEndKey. simpl. rewrite Hidx. simpl.
    by destruct (encodeOrPanic _ (Some dhi)).
Qed.

(** ** The range table holds every row the filter accepts *)

(** The comparison of a column with a value that the analyzer reads from a
    [ComparisonExpr]: the column, the value of the constant side, and the
    operator as seen from the column. *)
Definition recognised `{Collaborators} (o : parser.ComparisonOp) (l r : Expr)
    : option (qvalue * Datum * parser.ComparisonOp) :=
  if rangeOp o then
    match l with
    | Qvalue qv =>
        if isConst r then
          match EvalExpr r with
          | Some d => if convertDatum (col qv) d then Some (qv, d, o) else None
          | None => None
          end
        else None
    | _ =>
        match r with
        | Qvalue qv =>
            if isConst l then
              match EvalExpr l with
              | Some d =>
                  if convertDatum (col qv) d then Some (qv, d, invertOp o) else None
              | None => None
              end
            else None
        | _ => None
        end
    end
  else None.

(** What a comparison says of a row: the value of the column stands in the
    operator's relation to the constant, in the order of the encoded keys,
    which is the order [compare] goes by.  A comparison the analyzer does
    not read says nothing. *)
Definition holdsCmp `{Collaborators} (row : N -> Datum) (o : parser.ComparisonOp)
    (l r : Expr) : Prop :=
  match recognised o l r with
  | Some (qv, d, o') => admits {| datum := Some d; op := o' |} (row (col_ID (col qv)))
  | None => True
  end.

(** What a filter says of a row, as far as the analyzer reads it. *)
Fixpoint holds `{Collaborators} (row : N -> Datum) (e : Expr) : Prop :=
  match e with
  | AndExpr l r => holds row l /\ holds row r
  | OrExpr l r => holds row l \/ holds row r
  | ParenExpr e => holds row e
  | ComparisonExpr o l r => holdsCmp row o l r
  | RangeCond true l from to =>
      holdsCmp row parser.LT l from \/ holdsCmp row parser.GT l to
  | RangeCond false l from to =>
      holdsCmp row parser.GE l from /\ holdsCmp row parser.LE l to
  | _ => True
  end.

(** The row lies within every range of the table. *)
Definition rowInTable `{Collaborators} (row : N -> Datum) (m : qvalueRangeMap) : Prop :=
  forall k r, m !! k = Some r -> admits (start r) (row k) /\ admits (end_ r) (row k).

Section Sound.
Context `{Collaborators}.

Lemma admits_nil (q : qvalueInfo) (x : Datum) : datum q = None -> admits q x.
Proof. intros Hq. unfold admits. by rewrite Hq. Qed.

Lemma compare_Ok_inv (q : qvalueInfo) (dq dn : Datum) (c : Z) :
  datum q = Some dq -> compare q (Some dn) = Ok c ->
  exists kq kn, encodeTableKey [] (Some dq) = Some kq /\
                encodeTableKey [] (Some dn) = Some kn /\
                c = bytes_Compare kn kq.
Proof.
  intros Hq. unfold compare, encodeOrPanic. rewrite Hq.
  destruct (encodeTableKey [] (Some dq)) as [kq|]; simpl; [|done].
  destruct (encodeTableKey [] (Some dn)) as [kn|]; simpl; [|done].
  intros [= <-]. by exists kq, kn.
Qed.

(** The bound [intersect] returns admits every value both bounds admit. *)
Lemma intersect_complete (q n q' : qvalueInfo) (start : bool) (dn : Datum) (x : Datum) :
  datum n = Some dn ->
  intersect q n start = Ok q' ->
  admits q x -> admits n x -> admits q' x.
Proof.
  intros Hn. unfold intersect.
  destruct (if start then assertStartOp n else assertEndOp n); simpl; [|done].
  destruct (datum q) as [dq|] eqn:Hq; simpl; [|by intros [= <-]].
  rewrite Hn. destruct (compare q (Some dn)) as [c|] eqn:Hc; simpl; [|done].
  destruct (compare_Ok_inv q dq dn c Hq Hc) as (kq & kn & Hkq & Hkn & ->).
  destruct (_ =? (if negb start then -1 else 1)); [by intros [= <-]|].
  destruct (bytes_Compare kn kq =? 0) eqn:E0; [|by intros [= <-]].
  apply Z.eqb_eq, bytes_Compare_eq in E0. subst kn.
  intros Hq' Hqx Hnx.
  assert (admits {| datum := Some dq; op := op n |} x) as Hmix.
  { destruct (admits_elim n x dn kq Hn Hkn Hnx) as (kx & Hkx & Ho).
    by apply (admits_intro _ x dq kx kq). }
  destruct (op n); injection Hq' as <-; done.
Qed.

(** The bound [union] returns admits every value either bound admits. *)
Lemma union_admits (q n q' : qvalueInfo) (start : bool) (dq dn : Datum) (x : Datum) :
  datum q = Some dq -> datum n = Some dn ->
  conforming start (op q) = true -> conforming start (op n) = true ->
  union q n start = Ok q' ->
  admits q x \/ admits n x -> admits q' x.
Proof.
  intros Hq Hn Hcq Hcn Hu Hx.
  assert (exists c, compare q (Some dn) = Ok c) as [c Hc].
  { unfold union in Hu. rewrite (assert_conforming _ _ Hcn), Hq, Hn in Hu.
    simpl in Hu. destruct (compare q (Some dn)) as [c|]; [by exists c|done]. }
  destruct (compare_Ok_inv q dq dn c Hq Hc) as (kq & kn & Hkq & Hkn & _).
  destruct (union_sound q n start dq dn kq kn Hq Hn Hcq Hcn Hkq Hkn)
    as (q'' & Hu' & _ & _ & Ha & _).
  rewrite Hu in Hu'. injection Hu' as <-. by apply Ha.
Qed.

Lemma opHolds_EQ_GE (c : Z) : opHolds parser.EQ c = true -> opHolds parser.GE c = true.
Proof. simpl. lia. Qed.

Lemma opHolds_EQ_LE (c : Z) : opHolds parser.EQ c = true -> opHolds parser.LE c = true.
Proof. simpl. lia. Qed.

Lemma admits_EQ (d x : Datum) :
  admits {| datum := Some d; op := parser.EQ |} x ->
  admits {| datum := Some d; op := parser.GE |} x /\
  admits {| datum := Some d; op := parser.LE |} x.
Proof.
  unfold admits. simpl. intros (kx & kd & Hx & Hd & Ho).
  split; exists kx, kd; split_and!; try done; simpl in *; lia.
Qed.

(** The analysis of one recognised comparison. *)
Definition bounded (m : qvalueRangeMap) (qv : qvalue) (d : Datum)
    (o : parser.ComparisonOp) : result qvalueRangeMap :=
  let r := getRange m (col_ID (col qv)) in
  s ← match o with
      | parser.EQ => intersect (start r) {| datum := Some d; op := parser.GE |} true
      | parser.GE | parser.GT => intersect (start r) {| datum := Some d; op := o |} true
      | _ => Ok (start r)
      end;
  e ← match o with
      | parser.EQ => intersect (end_ r) {| datum := Some d; op := parser.LE |} false
      | parser.LE | parser.LT => intersect (end_ r) {| datum := Some d; op := o |} false
      | _ => Ok (end_ r)
      end;
  Ok (<[col_ID (col qv) := {| start := s; end_ := e |}]> m).

Lemma analyzeComparisonExpr_recognised (m : qvalueRangeMap) (o : parser.ComparisonOp)
    (l r : Expr) :
  analyzeComparisonExpr m o l r =
    match recognised o l r with
    | Some (qv, d, o') => bounded m qv d o'
    | None => Ok m
    end.
Proof.
  unfold analyzeComparisonExpr, recognised, restrict, bounded.
  destruct o; simpl; try done;
    destruct l; try (destruct r; try done);
    repeat (case_match; simplify_eq/=; try done).
Qed.

Lemma getRange_admits (row : N -> Datum) (m : qvalueRangeMap) (k : N) :
  rowInTable row m ->
  admits (start (getRange m k)) (row k) /\ admits (end_ (getRange m k)) (row k).
Proof.
  intros Hm. unfold getRange. destruct (m !! k) as [r|] eqn:Hr; [by apply Hm|].
  split; by apply admits_nil.
Qed.

Lemma rowInTable_insert (row : N -> Datum) (m : qvalueRangeMap) (k : N)
    (r : qvalueRange) :
  rowInTable row m -> admits (start r) (row k) -> admits (end_ r) (row k) ->
  rowInTable row (<[k := r]> m).
Proof.
  intros Hm Hs He k' r'. destruct (decide (k' = k)) as [->|Hne].
  - rewrite lookup_insert_eq. by intros [= <-].
  - rewrite lookup_insert_ne by done. apply Hm.
Qed.

Lemma bounded_sound (row : N -> Datum) (m m' : qvalueRangeMap) (qv : qvalue)
    (d : Datum) (o : parser.ComparisonOp) :
  rowInTable row m ->
  admits {| datum := Some d; op := o |} (row (col_ID (col qv))) ->
  bounded m qv d o = Ok m' -> rowInTable row m'.
Proof.
  intros Hm Hx. unfold bounded.
  destruct (getRange_admits row m (col_ID (col qv)) Hm) as [Hs He].
  intros (s & Hs' & (e & He' & [= <-])%bind_Ok_inv)%bind_Ok_inv.
  apply rowInTable_insert; [done| |]; simpl.
  - destruct o; try (injection Hs' as <-; done).
    + eapply intersect_complete; [|exact Hs'|done|by apply admits_EQ]. done.
    + eapply intersect_complete; [|exact Hs'|done|done]. done.
    + eapply intersect_complete; [|exact Hs'|done|done]. done.
  - destruct o; try (injection He' as <-; done).
    + eapply intersect_complete; [|exact He'|done|by apply admits_EQ]. done.
    + eapply intersect_complete; [|exact He'|done|done]. done.
    + eapply intersect_complete; [|exact He'|done|done]. done.
Qed.

Lemma analyzeComparisonExpr_sound (row : N -> Datum) (m m' : qvalueRangeMap)
    (o : parser.ComparisonOp) (l r : Expr) :
  rowInTable row m -> holdsCmp row o l r ->
  analyzeComparisonExpr m o l r = Ok m' -> rowInTable row m'.
Proof.
  intros Hm. unfold holdsCmp. rewrite analyzeComparisonExpr_recognised.
  destruct (recognised o l r) as [[[qv d] o']|]; [|by intros _ [= <-]].
  intros Hx Hb. by eapply bounded_sound.
Qed.

Lemma wfBound_conforming (start : bool) (q : qvalueInfo) (d : Datum) :
  wfBound start q = true -> datum q = Some d -> conforming start (op q) = true.
Proof. intros Hq Hd. unfold wfBound in Hq. by rewrite Hd in Hq. Qed.

Lemma mergedBound_admits (start : bool) (l r s : qvalueInfo) (x : Datum) :
  wfBound start l = true -> wfBound start r = true ->
  mergedBound start l r = Ok s ->
  admits l x \/ admits r x -> admits s x.
Proof.
  intros Hl Hr. unfold mergedBound.
  destruct (datum l) as [dl|] eqn:Hdl; simpl; [|intros [= <-] _; by apply admits_nil].
  destruct (datum r) as [dr|] eqn:Hdr; simpl; [|intros [= <-] _; by apply admits_nil].
  intros Hu Hx. eapply (union_admits l r s start dl dr); try done.
  - by eapply wfBound_conforming.
  - by eapply wfBound_conforming.
Qed.

Lemma orMergeAll_sound (row : N -> Datum) (left right m m' : qvalueRangeMap) :
  wfMap left -> wfMap right ->
  rowInTable row m ->
  rowInTable row left \/ rowInTable row right ->
  orMergeAll left right m = Ok m' -> rowInTable row m'.
Proof.
  intros Hwl Hwr Hm Hlr Hm'. pose proof (orMergeAll_orMerged left right m) as Hspec.
  rewrite Hm' in Hspec. simpl in Hspec. intros k rr Hk. specialize (Hspec k).
  destruct (left !! k) as [lk|] eqn:Hlk; [|rewrite Hspec in Hk; by apply Hm].
  destruct (right !! k) as [rk|] eqn:Hrk; [|rewrite Hspec in Hk; by apply Hm].
  destruct Hspec as (x & Hx & Hmk). rewrite Hmk in Hk.
  destruct x as [x|]; [|by apply Hm]. injection Hk as <-.
  pose proof (Hwl k lk Hlk) as [Hls Hle]%andb_true_iff.
  pose proof (Hwr k rk Hrk) as [Hrs Hre]%andb_true_iff.
  unfold mergedRange in Hx.
  apply bind_Ok_inv in Hx as (s & Hs & Hx).
  apply bind_Ok_inv in Hx as (e & He & Hx).
  destruct (negb (isNil (datum s)) || negb (isNil (datum e))); [|done].
  injection Hx as <-. simpl. split.
  - eapply mergedBound_admits; [exact Hls|exact Hrs|exact Hs|].
    destruct Hlr as [Hl|Hr]; [left; by apply (Hl k lk)|right; by apply (Hr k rk)].
  - eapply mergedBound_admits; [exact Hle|exact Hre|exact He|].
    destruct Hlr as [Hl|Hr]; [left; by apply (Hl k lk)|right; by apply (Hr k rk)].
Qed.

Lemma rowInTable_empty (row : N -> Datum) : rowInTable row ∅.
Proof. intros k r. by rewrite lookup_empty. Qed.

Lemma analyzeExpr_wf (m m' : qvalueRangeMap) (expr : Expr) :
  wfMap m -> analyzeExpr m expr = Ok m' -> wfMap m'.
Proof.
  intros Hm Hm'. pose proof (analyzeExpr_fine m expr Hm) as Hf.
  by rewrite Hm' in Hf.
Qed.

Lemma analyzeExpr_sound (row : N -> Datum) (m m' : qvalueRangeMap) (expr : Expr) :
  wfMap m -> rowInTable row m -> holds row expr ->
  analyzeExpr m expr = Ok m' -> rowInTable row m'.
Proof.
  remember (weight expr) as n eqn:Hn. revert m m' expr Hn.
  induction n as [n IH] using lt_wf_ind. intros m m' expr -> Hwf Hm.
  destruct expr as [l r|l r|e|e|o l r|[] l from to|q|o]; simpl.
  - intros [Hl Hr]. rewrite analyzeExpr_equation_1.
    destruct (analyzeExpr m l) as [m1|p] eqn:Hm1; [|done]. intros Hm'.
    apply (IH (weight r) ltac:(simpl; lia) m1 m' r eq_refl); try done.
    + by eapply analyzeExpr_wf.
    + by apply (IH (weight l) ltac:(simpl; lia) m m1 l eq_refl).
  - intros Hlr. rewrite analyzeExpr_equation_2.
    destruct (analyzeExpr ∅ l) as [left_|p] eqn:Hl; [|done].
    destruct (analyzeExpr ∅ r) as [right_|p] eqn:Hr; [|done].
    apply orMergeAll_sound; try done.
    + eapply analyzeExpr_wf; [apply wfMap_empty|done].
    + eapply analyzeExpr_wf; [apply wfMap_empty|done].
    + destruct Hlr as [Hhl|Hhr].
      * left. apply (IH (weight l) ltac:(simpl; lia) ∅ left_ l eq_refl);
          [apply wfMap_empty|apply rowInTable_empty|done|done].
      * right. apply (IH (weight r) ltac:(simpl; lia) ∅ right_ r eq_refl);
          [apply wfMap_empty|apply rowInTable_empty|done|done].
  - intros _. rewrite analyzeExpr_equation_3. by intros [= <-].
  - intros He. rewrite analyzeExpr_equation_4.
    by apply (IH (weight e) ltac:(simpl; lia) m m' e eq_refl).
  - intros Hc. rewrite analyzeExpr_equation_5. by apply analyzeComparisonExpr_sound.
  - intros Hc. rewrite analyzeExpr_equation_6.
    by apply (IH 3%nat ltac:(simpl; lia)).
  - intros Hc. rewrite analyzeExpr_equation_7.
    by apply (IH 3%nat ltac:(simpl; lia)).
  - intros _. rewrite analyzeExpr_equation_8. by intros [= <-].
  - intros _. rewrite analyzeExpr_equation_9. by intros [= <-].
Qed.

End Sound.


(** ** The committed scan holds every row the filter accepts *)

Lemma bytes_Compare_app_l (p a b : list byte) :
  bytes_Compare (p ++ a) (p ++ b) = bytes_Compare a b.
Proof. induction p as [|x p IH]; simpl; [done|]. by rewrite N.compare_refl. Qed.

Lemma bytes_le_app (a s : list byte) : bytes_le a (a ++ s).
Proof.
  unfold bytes_le. rewrite <- (app_nil_r a) at 1. rewrite bytes_Compare_app_l.
  destruct s; simpl; lia.
Qed.

(** Two keys of which neither begins with the other compare the same way
    whatever is appended to them. *)
Lemma bytes_Compare_decided (a b s t : list byte) :
  ~ a `prefix_of` b -> ~ b `prefix_of` a ->
  bytes_Compare (a ++ s) (b ++ t) = bytes_Compare a b.
Proof.
  revert b. induction a as [|x a IH]; intros [|y b] Hab Hba; simpl.
  - exfalso. apply Hab. by exists [].
  - exfalso. apply Hab. by eexists.
  - exfalso. apply Hba. by eexists.
  - destruct (N.compare (Byte.to_N x) (Byte.to_N y)) eqn:E; try done.
    apply N.compare_eq, to_N_inj in E. subst y. apply IH.
    + intros [k ->]. apply Hab. by exists k.
    + intros [k ->]. apply Hba. by exists k.
Qed.

(** What the planner relies on from the key encoding and the key
    operations: the encoder appends the encoding of the value to the key it
    is given; no encoding begins with another one; [Key.Next] appends a
    zero byte; and below an index prefix, [Key.PrefixEnd] is above every
    key that begins with its argument. *)
Record KeyContract `{Collaborators} : Prop := {
  encode_appends : forall key d,
    encodeTableKey key (Some d) = (key ++.) <$> encodeTableKey [] (Some d);
  encode_prefix_free : forall d1 d2 k1 k2,
    encodeTableKey [] (Some d1) = Some k1 -> encodeTableKey [] (Some d2) = Some k2 ->
    k1 `prefix_of` k2 -> k1 = k2;
  next_appends_zero : forall k, Key_Next k = k ++ [x00];
  prefixEnd_above : forall t i k s,
    MakeIndexKeyPrefix t i `prefix_of` k -> bytes_lt (k ++ s) (Key_PrefixEnd k);
}.

(** Modelled from the spec: the key under which an index stores a row
    begins with the index's key prefix, followed by the encodings of the
    row's values of the index's key columns in their declared order; the
    index-key builder itself is outside this file.  [encodeColumns]
    appends those encodings to [key]. *)
Fixpoint encodeColumns `{Collaborators} (row : N -> Datum) (colIDs : list N)
    (key : Key) : option Key :=
  match colIDs with
  | [] => Some key
  | c :: rest =>
      match encodeTableKey key (Some (row c)) with
      | Some k => encodeColumns row rest k
      | None => None
      end
  end.

Section Keys.
Context `{Collaborators}.
Hypothesis contract : KeyContract.
Variable row : N -> Datum.
Variable m : qvalueRangeMap.
Hypothesis m_wf : wfMap m.
Hypothesis m_row : rowInTable row m.

Lemma encode_Some (key : Key) (d : Datum) (k : Key) :
  encodeTableKey key (Some d) = Some k <->
  exists e, encodeTableKey [] (Some d) = Some e /\ k = key ++ e.
Proof.
  rewrite (encode_appends contract).
  destruct (encodeTableKey [] (Some d)) as [e|]; simpl; split.
  - intros [= <-]. by exists e.
  - by intros (e' & [= <-] & ->).
  - done.
  - by intros (e' & ? & _).
Qed.

Lemma encodeColumns_prefix (colIDs : list N) (key rk : Key) :
  encodeColumns row colIDs key = Some rk -> key `prefix_of` rk.
Proof.
  revert key. induction colIDs as [|c rest IH]; intros key; simpl.
  - by intros [= <-].
  - destruct (encodeTableKey key (Some (row c))) as [k|] eqn:Hk; [|done].
    apply encode_Some in Hk as (e & _ & ->). intros Hrk%IH.
    etrans; [|exact Hrk]. by exists e.
Qed.

Lemma makeStartKey_loop_prefix (l : list qvalueInfo) (key sk : Key) :
  makeStartKey_loop l key = Ok sk -> key `prefix_of` sk.
Proof.
  revert key. induction l as [|e l IH]; intros key; simpl.
  - by intros [= <-].
  - destruct (datum e) as [d|] eqn:Hd; simpl; [|by intros [= <-]].
    unfold encodeOrPanic.
    destruct (encodeTableKey key (Some d)) as [k|] eqn:Hk; simpl; [|done].
    apply encode_Some in Hk as (e' & _ & ->).
    case_decide.
    + intros [= <-]. rewrite (next_appends_zero contract).
      exists (e' ++ [x00]). by rewrite app_assoc.
    + intros Hsk%IH. etrans; [|exact Hsk]. by exists e'.
Qed.

Lemma makeEndKey_loop_prefix (l : list qvalueInfo) (key k' : Key) (b isLT : bool) :
  makeEndKey_loop l key b = Ok (k', isLT) -> key `prefix_of` k'.
Proof.
  revert key b. induction l as [|e l IH]; intros key b; simpl.
  - by intros [= <- _].
  - destruct (datum e) as [d|] eqn:Hd; simpl; [|by intros [= <- _]].
    unfold encodeOrPanic.
    destruct (encodeTableKey key (Some d)) as [k|] eqn:Hk; simpl; [|done].
    apply encode_Some in Hk as (e' & _ & ->).
    case_bool_decide.
    + intros [= <- _]. by exists e'.
    + intros Hsk%IH. etrans; [|exact Hsk]. by exists e'.
Qed.

(** Two encodings that differ compare the same way at the head of any two
    keys. *)
Lemma encodings_decided (d1 d2 : Datum) (k1 k2 s t : Key) :
  encodeTableKey [] (Some d1) = Some k1 -> encodeTableKey [] (Some d2) = Some k2 ->
  bytes_Compare k1 k2 <> 0 ->
  bytes_Compare (k1 ++ s) (k2 ++ t) = bytes_Compare k1 k2.
Proof.
  intros H1 H2 Hne. apply bytes_Compare_decided.
  - intros Hp. apply (encode_prefix_free contract d1 d2 k1 k2 H1 H2) in Hp.
    subst. by rewrite bytes_Compare_refl in Hne.
  - intros Hp. apply (encode_prefix_free contract d2 d1 k2 k1 H2 H1) in Hp.
    subst. by rewrite bytes_Compare_refl in Hne.
Qed.

Lemma start_key_le (colIDs : list N) (key sk rk suffix : Key) :
  makeStartKey_loop (extract start parser.GE m colIDs) key = Ok sk ->
  encodeColumns row colIDs key = Some rk ->
  bytes_le sk (rk ++ suffix).
Proof.
  revert key. induction colIDs as [|c rest IH]; intros key; simpl.
  - intros [= <-] [= <-]. apply bytes_le_app.
  - destruct (encodeTableKey key (Some (row c))) as [kr|] eqn:Hkr; [|done].
    apply encode_Some in Hkr as (kx & Hkx & ->).
    assert (forall rk, encodeColumns row rest (key ++ kx) = Some rk ->
              bytes_le key (rk ++ suffix)) as Hkey.
    { intros rk' [t ->]%encodeColumns_prefix.
      rewrite <- !app_assoc. apply bytes_le_app. }
    destruct (m !! c) as [r|] eqn:Hr; simpl; [|intros [= <-]; apply Hkey].
    destruct (datum (start r)) as [d|] eqn:Hd; simpl; [|intros [= <-]; apply Hkey].
    unfold encodeOrPanic.
    destruct (encodeTableKey key (Some d)) as [k|] eqn:Hk; simpl; [|done].
    apply encode_Some in Hk as (kd & Hkd & ->).
    destruct (m_row c r Hr) as [Hadm _].
    destruct (admits_elim (start r) (row c) d kd Hd Hkd Hadm) as (kx' & Hkx' & Hop).
    rewrite Hkx in Hkx'. injection Hkx' as <-.
    pose proof (m_wf c r Hr) as [Hwf _]%andb_true_iff.
    pose proof (wfBound_conforming true (start r) d Hwf Hd) as Hconf.
    intros Hsk Hrk.
    pose proof (encodeColumns_prefix rest (key ++ kx) rk Hrk) as [t ->].
    destruct (decide (bytes_Compare kx kd = 0)) as [E0|Hne].
    + (* the row's value is the bound's value *)
      apply bytes_Compare_eq in E0. subst kd.
      destruct (op (start r)) eqn:Ho; try done; simpl in Hop; [|].
      * rewrite bytes_Compare_refl in Hop. done.
      * rewrite decide_False in Hsk by done. rewrite decide_True in Hsk by done.
        by apply (IH (key ++ kx)).
    + (* the row's value is above the bound's value *)
      assert (0 < bytes_Compare kx kd) as Hgt.
      { destruct (op (start r)); try done; simpl in Hop; lia. }
      assert (exists t', sk = key ++ kd ++ t') as [t' ->].
      { case_decide.
        - injection Hsk as <-. rewrite (next_appends_zero contract).
          exists [x00]. by rewrite app_assoc.
        - apply makeStartKey_loop_prefix in Hsk as [t' ->].
          exists t'. by rewrite app_assoc. }
      unfold bytes_le. rewrite <- !app_assoc, bytes_Compare_app_l.
      rewrite (encodings_decided d (row c) kd kx) by
        (try done; rewrite (bytes_Compare_antisym kx kd); lia).
      rewrite (bytes_Compare_antisym kx kd). lia.
Qed.

Lemma end_key_lt (colIDs : list N) (key k' rk suffix : Key) (isLT : bool)
    (t : N) (i : N) :
  MakeIndexKeyPrefix t i `prefix_of` key ->
  makeEndKey_loop (extract end_ parser.LE m colIDs) key false = Ok (k', isLT) ->
  encodeColumns row colIDs key = Some rk ->
  bytes_lt (rk ++ suffix) (if isLT then k' else Key_PrefixEnd k').
Proof.
  revert key. induction colIDs as [|c rest IH]; intros key Hpre; simpl.
  - intros [= <- <-] [= <-]. by apply (prefixEnd_above contract t i).
  - destruct (encodeTableKey key (Some (row c))) as [kr|] eqn:Hkr; [|done].
    apply encode_Some in Hkr as (kx & Hkx & ->).
    assert (forall rk, encodeColumns row rest (key ++ kx) = Some rk ->
              bytes_lt (rk ++ suffix) (Key_PrefixEnd key)) as Hkey.
    { intros rk' [u ->]%encodeColumns_prefix.
      rewrite <- !app_assoc. by apply (prefixEnd_above contract t i). }
    destruct (m !! c) as [r|] eqn:Hr; simpl; [|intros [= <- <-]; apply Hkey].
    destruct (datum (end_ r)) as [d|] eqn:Hd; simpl;
      [|intros [= <- <-]; apply Hkey].
    unfold encodeOrPanic.
    destruct (encodeTableKey key (Some d)) as [k|] eqn:Hk; simpl; [|done].
    apply encode_Some in Hk as (kd & Hkd & ->).
    destruct (m_row c r Hr) as [_ Hadm].
    destruct (admits_elim (end_ r) (row c) d kd Hd Hkd Hadm) as (kx' & Hkx' & Hop).
    rewrite Hkx in Hkx'. injection Hkx' as <-.
    pose proof (m_wf c r Hr) as [_ Hwf]%andb_true_iff.
    pose proof (wfBound_conforming false (end_ r) d Hwf Hd) as Hconf.
    intros Hek Hrk.
    pose proof (encodeColumns_prefix rest (key ++ kx) rk Hrk) as [u ->].
    destruct (decide (bytes_Compare kx kd = 0)) as [E0|Hne].
    + apply bytes_Compare_eq in E0. subst kd.
      destruct (op (end_ r)) eqn:Ho; try done; simpl in Hop; [|].
      * rewrite bytes_Compare_refl in Hop. done.
      * rewrite bool_decide_false in Hek by done.
        rewrite decide_True in Hek by done.
        apply (IH (key ++ kx)); [|done|done].
        etrans; [exact Hpre|]. by exists kx.
    + assert (bytes_Compare kx kd < 0) as Hlt.
      { destruct (op (end_ r)); try done; simpl in Hop; lia. }
      assert (exists u', k' = key ++ kd ++ u') as [u' ->].
      { case_bool_decide.
        - injection Hek as <- _. exists []. by rewrite app_nil_r.
        - case_decide; [|injection Hek as <- _; exists []; by rewrite app_nil_r].
          apply makeEndKey_loop_prefix in Hek as [u' ->].
          exists u'. by rewrite app_assoc. }
      assert (bytes_lt (((key ++ kx) ++ u) ++ suffix) (key ++ kd ++ u')) as Hbelow.
      { unfold bytes_lt. rewrite <- !app_assoc, bytes_Compare_app_l.
        rewrite (encodings_decided (row c) d kx kd) by (try done; lia).
        destruct (bytes_Compare_range kx kd) as [?|[?|?]]; lia. }
      destruct isLT; [done|].
      eapply bytes_lt_le_trans; [exact Hbelow|].
      apply bytes_le_lt_or_eq. left.
      rewrite <- (app_nil_r (key ++ kd ++ u')) at 1.
      apply (prefixEnd_above contract t i).
      etrans; [exact Hpre|]. by eexists.
Qed.

End Keys.

Section ScanSound.
Context `{Collaborators}.

Lemma candidatesOf_newIndexInfo (s : scanNode) (d : TableDescriptor) (c : indexInfo) :
  c ∈ candidatesOf s d -> c = newIndexInfo d (index c).
Proof.
  unfold candidatesOf. destruct (isSecondaryIndex s).
  - by intros ->%list_elem_of_singleton.
  - intros [->|Hc]%elem_of_cons; [done|].
    apply list_elem_of_fmap in Hc as (i & -> & _). done.
Qed.

(** The keys of an analysed candidate enclose the index key of every row
    that lies within the range table. *)
Lemma candidate_keys_sound (d : TableDescriptor) (i : IndexRef) (qvals : qvalMap)
    (m : qvalueRangeMap) (row : N -> Datum) (v' : indexInfo) (idx : IndexDescriptor)
    (sk ek rk suffix : Key) :
  KeyContract -> wfMap m -> rowInTable row m ->
  analyzeRanges (newIndexInfo d i) qvals m = Ok v' ->
  deref d i = Ok idx ->
  makeStartKey v' = Ok sk -> makeEndKey v' = Ok ek ->
  encodeColumns row (idx_ColumnIDs idx) (MakeIndexKeyPrefix (tbl_ID d) (idx_ID idx))
    = Some rk ->
  bytes_le sk (rk ++ suffix) /\ bytes_lt (rk ++ suffix) ek.
Proof.
  intros Hcontract Hwf Hrow Hv' Hidx Hsk Hek Hrk.
  set (P := MakeIndexKeyPrefix (tbl_ID d) (idx_ID idx)) in *.
  assert (exists s e c, v' = {| desc := d; index := i; v_start := s; v_end := e;
                                cost := c |} /\
            ((s = extract start parser.GE m (idx_ColumnIDs idx) /\
              e = extract end_ parser.LE m (idx_ColumnIDs idx)) \/
             (s = [] /\ e = []))) as (s & e & c & -> & Hlists).
  { destruct (isCoveringIndex (newIndexInfo d i) qvals) as [[]|] eqn:Hcov.
    - rewrite (analyzeRanges_covering _ qvals m idx Hcov Hidx) in Hv'.
      injection Hv' as <-. simpl. eexists _, _, _. split; [reflexivity|]. left.
      by rewrite makeStartInfo_loop_extract, makeEndInfo_loop_extract.
    - unfold analyzeRanges in Hv'. rewrite Hcov in Hv'. simpl in Hv'.
      injection Hv' as <-. simpl. eexists _, _, _. split; [reflexivity|]. by right.
    - unfold analyzeRanges in Hv'. by rewrite Hcov in Hv'. }
  unfold makeStartKey in Hsk. unfold makeEndKey in Hek. simpl in Hsk, Hek.
  rewrite Hidx in Hsk, Hek. simpl in Hsk, Hek. fold P in Hsk, Hek.
  destruct (makeEndKey_loop e P false) as [[k' isLT]|] eqn:Hloop; simpl in Hek; [|done].
  assert (ek = if isLT then k' else Key_PrefixEnd k') as ->.
  { destruct isLT; simpl in Hek; congruence. }
  destruct Hlists as [[-> ->]|[-> ->]].
  - split.
    + by apply (start_key_le Hcontract row m Hwf Hrow (idx_ColumnIDs idx) P).
    + by apply (end_key_lt Hcontract row m Hwf Hrow (idx_ColumnIDs idx) P k' rk suffix
                  isLT (tbl_ID d) (idx_ID idx)).
  - simpl in Hsk, Hloop. injection Hsk as <-. injection Hloop as <- <-.
    apply (encodeColumns_prefix Hcontract) in Hrk as [t ->]. split.
    + rewrite <- app_assoc. apply bytes_le_app.
    + rewrite <- app_assoc.
      by apply (prefixEnd_above Hcontract (tbl_ID d) (idx_ID idx)).
Qed.

End ScanSound.


(** ** The model keeps the key contract *)

Lemma be_bytes_length (w : nat) (n : N) : length (Model.be_bytes w n) = w.
Proof.
  revert n. induction w as [|w IH]; intros n; simpl; [done|].
  rewrite length_app, IH. simpl. lia.
Qed.

Lemma encodeInt_length (z : Z) (k : list byte) :
  Model.encodeInt z = Some k -> length k = 8%nat.
Proof.
  unfold Model.encodeInt. destruct (_ && _); [|done].
  intros [= <-]. reflexivity.
Qed.

Lemma to_N_byte_of_N (n : N) : (n < 256)%N -> Byte.to_N (Model.byte_of_N n) = n.
Proof.
  intros Hn. unfold Model.byte_of_N. rewrite N.mod_small by done.
  destruct (Byte.of_N n) as [b|] eqn:Hb; [by apply Byte.to_of_N|].
  apply Byte.of_N_None_iff in Hb. lia.
Qed.

Lemma increment_above (k r s : list byte) :
  Model.increment k = Some r -> bytes_lt (k ++ s) r.
Proof.
  unfold bytes_lt. revert r. induction k as [|b k IH]; intros r; simpl; [done|].
  destruct (Model.increment k) as [r'|] eqn:Hk.
  - intros [= <-]. simpl. rewrite N.compare_refl. by apply IH.
  - destruct (Byte.to_N b =? 255)%N eqn:Hb; [done|]. intros [= <-]. simpl.
    apply N.eqb_neq in Hb. pose proof (Byte.to_N_bounded b) as Hle.
    rewrite to_N_byte_of_N by lia.
    assert (N.compare (Byte.to_N b) (Byte.to_N b + 1) = Lt) as ->; [|done].
    apply N.compare_lt_iff. lia.
Qed.

Lemma prefixEnd_above_cons (b : byte) (rest s : list byte) :
  Byte.to_N b <> 255%N ->
  bytes_lt ((b :: rest) ++ s) (Model.prefixEnd (b :: rest)).
Proof.
  intros Hb.
  assert (exists r, Model.increment (b :: rest) = Some r) as [r Hr].
  { simpl. destruct (Model.increment rest); [by eexists|].
    apply N.eqb_neq in Hb. rewrite Hb. by eexists. }
  unfold Model.prefixEnd. rewrite Hr. by apply increment_above.
Qed.

Lemma prefixEnd_above_keyPrefix (t i : N) (k s : list byte) :
  Model.keyPrefix t i `prefix_of` k -> bytes_lt (k ++ s) (Model.prefixEnd k).
Proof.
  intros [u ->]. unfold Model.keyPrefix.
  change ((x74 :: Model.be_bytes 4 t ++ Model.be_bytes 4 i) ++ u)
    with (x74 :: ((Model.be_bytes 4 t ++ Model.be_bytes 4 i) ++ u)).
  by apply prefixEnd_above_cons.
Qed.

Lemma model_key_contract : @KeyContract Model.values Model.stable.
Proof.
  split.
  - intros key d. simpl. unfold Model.encodeKey.
    by destruct (Model.encodeInt d).
  - intros d1 d2 k1 k2. simpl. unfold Model.encodeKey.
    destruct (Model.encodeInt d1) as [e1|] eqn:H1; [|done].
    destruct (Model.encodeInt d2) as [e2|] eqn:H2; [|done].
    simpl. intros [= <-] [= <-] [u Hu].
    apply encodeInt_length in H1, H2.
    assert (length u = 0%nat) as Hlen.
    { apply (f_equal length) in Hu. rewrite length_app in Hu. lia. }
    destruct u; [|done]. by rewrite app_nil_r in Hu.
  - done.
  - intros t i k s. apply prefixEnd_above_keyPrefix.
Qed.

(** ** The bounds [intersect] and [union] return, exactly *)

Section Exact.
Context `{Collaborators}.

(** The bound [union] returns admits only values one of the bounds
    admits. *)
Lemma union_complete (q n q' : qvalueInfo) (start : bool) (dq dn : Datum) (x : Datum) :
  datum q = Some dq -> datum n = Some dn ->
  union q n start = Ok q' ->
  admits q' x -> admits q x \/ admits n x.
Proof.
  intros Hq Hn. unfold union.
  destruct (if start then assertStartOp n else assertEndOp n); simpl; [|done].
  rewrite Hq, Hn. simpl.
  destruct (compare q (Some dn)) as [c|] eqn:Hc; simpl; [|done].
  destruct (compare_Ok_inv q dq dn c Hq Hc) as (kq & kn & Hkq & Hkn & ->).
  destruct (_ =? (if negb start then 1 else -1)); [intros [= <-]; by right|].
  destruct (bytes_Compare kn kq =? 0) eqn:E0; [|intros [= <-]; by left].
  apply Z.eqb_eq, bytes_Compare_eq in E0. subst kn.
  assert (admits {| datum := Some dq; op := op n |} x -> admits n x) as Hmix.
  { intros Hx.
    destruct (admits_elim {| datum := Some dq; op := op n |} x dq kq eq_refl Hkq Hx)
      as (kx & Hkx & Ho).
    by apply (admits_intro n x dn kx kq). }
  destruct (op n); intros [= <-]; auto.
Qed.

End Exact.

(** X18.  [intersect] returns exactly the intersection of the two bounds
    and [union] exactly their union.  For a constraint and a candidate that
    both carry a value the encoder accepts and an operator of the side at
    hand, both calls return; the bound [intersect] returns admits a value
    if and only if both bounds admit it, and the bound [union] returns
    admits a value if and only if one of the bounds admits it.  So neither
    depends on which of the two bounds was there first. *)
Theorem intersect_and_union_are_exact `{Collaborators}
    (q n : qvalueInfo) (start : bool) (dq dn : Datum) (kq kn : Key) :
  datum q = Some dq -> datum n = Some dn ->
  conforming start (op q) = true -> conforming start (op n) = true ->
  encodeTableKey [] (Some dq) = Some kq -> encodeTableKey [] (Some dn) = Some kn ->
  (exists q', intersect q n start = Ok q' /\
     forall x, admits q' x <-> admits q x /\ admits n x) /\
  (exists q', union q n start = Ok q' /\
     forall x, admits q' x <-> admits q x \/ admits n x).
Proof.
  intros Hq Hn Hcq Hcn Hkq Hkn. split.
  - destruct (intersect_sound q n start dq dn kq kn) as (q' & Hi & _ & _ & Ha & _);
      try done.
    exists q'. split; [done|]. intros x. split; [apply Ha|].
    intros [Hqx Hnx]. by apply (intersect_complete q n q' start dn x).
  - destruct (union_sound q n start dq dn kq kn) as (q' & Hu & _ & _ & Ha & _);
      try done.
    exists q'. split; [done|]. intros x. split; [|apply Ha].
    by apply (union_complete q n q' start dq dn x).
Qed.

(** ** Equality as a closed range *)

(** X19.  A column equal to a constant is analysed as the column between
    that constant and itself: [a = c] leaves the table, or the panic,
    that [a BETWEEN c AND c] leaves, which is what [a >= c AND a <= c]
    leaves. *)
Theorem equality_is_the_closed_range `{Collaborators}
    (m : qvalueRangeMap) (qv : qvalue) (c : Expr) :
  analyzeExpr m (ComparisonExpr parser.EQ (Qvalue qv) c) =
  analyzeExpr m (RangeCond false (Qvalue qv) c c) /\
  analyzeExpr m (RangeCond false (Qvalue qv) c c) =
  analyzeExpr m (AndExpr (ComparisonExpr parser.GE (Qvalue qv) c)
                         (ComparisonExpr parser.LE (Qvalue qv) c)).
Proof.
  split; [|by rewrite analyzeExpr_equation_7].
  rewrite analyzeExpr_equation_7, analyzeExpr_equation_1, !analyzeExpr_equation_5.
  unfold analyzeComparisonExpr at 1 2. simpl.
  destruct (isConst c) eqn:Hc; simpl.
  2:{ rewrite analyzeExpr_equation_5. unfold analyzeComparisonExpr. by rewrite Hc. }
  unfold restrict at 1 2.
  destruct (EvalExpr c) as [d|] eqn:Hd.
  2:{ rewrite analyzeExpr_equation_5. unfold analyzeComparisonExpr, restrict.
      by rewrite Hc, Hd. }
  destruct (convertDatum (col qv) d) eqn:Hv; simpl.
  2:{ rewrite analyzeExpr_equation_5. unfold analyzeComparisonExpr, restrict.
      by rewrite Hc, Hd, Hv. }
  destruct (intersect (start (getRange m (col_ID (col qv)))) _ true) as [s|p];
    simpl; [|done].
  rewrite analyzeExpr_equation_5. unfold analyzeComparisonExpr, restrict.
  rewrite Hc, Hd, Hv. simpl. unfold getRange. rewrite lookup_insert_eq. simpl.
  destruct (intersect _ _ false) as [e|p]; simpl; [|done].
  by rewrite insert_insert_eq.
Qed.

(** ** Scans of a whole index, and runs that return *)

Section WholeIndex.
Context `{Collaborators}.

(** The bound lists of an analysed candidate: those the extraction builds
    from the index's key columns, or none when the index does not cover
    the query. *)
Lemma analyzeRanges_lists (d : TableDescriptor) (i : IndexRef) (qvals : qvalMap)
    (m : qvalueRangeMap) (v' : indexInfo) (idx : IndexDescriptor) :
  analyzeRanges (newIndexInfo d i) qvals m = Ok v' ->
  deref d i = Ok idx ->
  desc v' = d /\ index v' = i /\
  ((v_start v' = extract start parser.GE m (idx_ColumnIDs idx) /\
    v_end v' = extract end_ parser.LE m (idx_ColumnIDs idx)) \/
   (v_start v' = [] /\ v_end v' = [])).
Proof.
  intros Hv' Hidx.
  destruct (isCoveringIndex (newIndexInfo d i) qvals) as [[]|] eqn:Hcov.
  - rewrite (analyzeRanges_covering _ qvals m idx Hcov Hidx) in Hv'.
    injection Hv' as <-. simpl. split_and!; [done|done|]. left.
    by rewrite makeStartInfo_loop_extract, makeEndInfo_loop_extract.
  - unfold analyzeRanges in Hv'. rewrite Hcov in Hv'. simpl in Hv'.
    injection Hv' as <-. simpl. split_and!; [done|done|]. by right.
  - unfold analyzeRanges in Hv'. by rewrite Hcov in Hv'.
Qed.

Lemma extract_unbounded (proj : qvalueRange -> qvalueInfo) (cont : parser.ComparisonOp)
    (m : qvalueRangeMap) (colIDs : list N) :
  (forall c, head colIDs = Some c -> m !! c = None) ->
  extract proj cont m colIDs = [].
Proof.
  destruct colIDs as [|c rest]; simpl; [done|]. intros Hc.
  by rewrite (Hc c eq_refl).
Qed.

(** The candidate [selectIndex] commits is the analysis of a candidate of
    the table. *)
Lemma committed_candidate (s s' : scanNode) (d : TableDescriptor) (f : Expr)
    (m : qvalueRangeMap) :
  SortContract ->
  s_desc s = Some d -> filter s = Some f ->
  analyzeExpr ∅ f = Ok m ->
  selectIndex s = Ok s' ->
  exists c0,
    analyzeRanges (newIndexInfo d (s_index s')) (qvals s) m = Ok c0 /\
    makeStartKey c0 = Ok (startKey s') /\ makeEndKey c0 = Ok (endKey s').
Proof.
  intros Hsort Hd Hf Hm Hsel.
  destruct (selectIndex_inv s s' d f Hd Hf Hsel)
    as (m' & analysed & c0 & rest & Hm' & Ha & Hs & Hsk & Hek & Hi & _).
  rewrite Hm in Hm'. injection Hm' as <-.
  destruct (sorted_head_least analysed c0 rest Hsort Hs) as [Hin _].
  apply analyzeAll_Forall2 in Ha.
  apply list_elem_of_lookup in Hin as [j Hj].
  destruct (Forall2_lookup_r _ _ _ _ _ Ha Hj) as (c & Hc & Hc0).
  apply list_elem_of_lookup_2, candidatesOf_newIndexInfo in Hc.
  pose proof (analyzeRanges_index _ _ _ _ Hc0) as [_ Hic].
  rewrite Hc in Hc0. exists c0. by rewrite Hi, Hic.
Qed.

End WholeIndex.

(** X20.  A filter that puts no bound on the leading key column of the
    committed index gives a scan of the whole index: when the range table
    has no entry for the first key column of the index [selectIndex]
    commits, or the index has no key column, the start key is the index's
    key prefix and the end key is the end of that prefix, whatever the
    table holds for the other columns. *)
Theorem unbounded_leading_column_scans_the_whole_index `{Collaborators}
    (s s' : scanNode) (d : TableDescriptor) (f : Expr) (m : qvalueRangeMap)
    (idx : IndexDescriptor) :
  SortContract ->
  s_desc s = Some d -> filter s = Some f ->
  analyzeExpr ∅ f = Ok m ->
  selectIndex s = Ok s' ->
  deref d (s_index s') = Ok idx ->
  (forall c, head (idx_ColumnIDs idx) = Some c -> m !! c = None) ->
  startKey s' = MakeIndexKeyPrefix (tbl_ID d) (idx_ID idx) /\
  endKey s' = Key_PrefixEnd (MakeIndexKeyPrefix (tbl_ID d) (idx_ID idx)).
Proof.
  intros Hsort Hd Hf Hm Hsel Hidx Hhead.
  destruct (committed_candidate s s' d f m Hsort Hd Hf Hm Hsel) as (c0 & Hc0 & Hsk & Hek).
  destruct (analyzeRanges_lists d (s_index s') (qvals s) m c0 idx Hc0 Hidx)
    as (Hdesc & Hindex & Hlists).
  assert (v_start c0 = [] /\ v_end c0 = []) as [Hs He].
  { destruct Hlists as [[-> ->]|?]; [|done].
    by rewrite !extract_unbounded. }
  unfold makeStartKey in Hsk. unfold makeEndKey in Hek.
  rewrite Hdesc, Hindex, Hidx in Hsk, Hek. simpl in Hsk, Hek.
  rewrite Hs in Hsk. rewrite He in Hek. simpl in Hsk, Hek.
  split; congruence.
Qed.

Section Returns.
Context `{Collaborators}.
Hypothesis encoder_total : forall key d, is_Some (encodeTableKey key (Some d)).

Lemma makeStartKey_loop_returns (l : list qvalueInfo) (key : Key) :
  exists k, makeStartKey_loop l key = Ok k.
Proof.
  revert key. induction l as [|e l IH]; intros key; simpl; [by eexists|].
  destruct (datum e) as [d|]; simpl; [|by eexists].
  unfold encodeOrPanic. destruct (encoder_total key d) as [k ->]. simpl.
  case_decide; [by eexists|apply IH].
Qed.

Lemma makeEndKey_loop_returns (l : list qvalueInfo) (key : Key) (b : bool) :
  exists r, makeEndKey_loop l key b = Ok r.
Proof.
  revert key b. induction l as [|e l IH]; intros key b; simpl; [by eexists|].
  destruct (datum e) as [d|]; simpl; [|by eexists].
  unfold encodeOrPanic. destruct (encoder_total key d) as [k ->]. simpl.
  case_bool_decide; [by eexists|apply IH].
Qed.

Lemma analyzeRanges_returns (v : indexInfo) (qvals : qvalMap) (m : qvalueRangeMap)
    (idx : IndexDescriptor) :
  deref (desc v) (index v) = Ok idx -> exists v', analyzeRanges v qvals m = Ok v'.
Proof.
  intros Hidx.
  assert (exists b, isCoveringIndex v qvals = Ok b) as [[] Hcov].
  { unfold isCoveringIndex. case_decide; [by eexists|].
    rewrite (isCoveringIndex_loop_forallb v idx _ Hidx). by eexists. }
  - rewrite (analyzeRanges_covering v qvals m idx Hcov Hidx). by eexists.
  - unfold analyzeRanges. rewrite Hcov. simpl. by eexists.
Qed.

Lemma analyzeAll_returns (cs : list indexInfo) (qvals : qvalMap) (m : qvalueRangeMap) :
  Forall (fun c => exists idx, deref (desc c) (index c) = Ok idx) cs ->
  exists l, analyzeAll cs qvals m = Ok l.
Proof.
  induction 1 as [|c cs [idx Hidx] _ [l IH]]; simpl; [by eexists|].
  destruct (analyzeRanges_returns c qvals m idx Hidx) as [c' ->]. simpl.
  rewrite IH. simpl. by eexists.
Qed.

Lemma candidatesOf_deref (s : scanNode) (d : TableDescriptor) :
  (isSecondaryIndex s = true -> exists idx, deref d (s_index s) = Ok idx) ->
  Forall (fun c => exists idx, deref (desc c) (index c) = Ok idx) (candidatesOf s d).
Proof.
  intros Hexp. unfold candidatesOf. destruct (isSecondaryIndex s).
  - constructor; [by apply Hexp|constructor].
  - constructor; [by eexists|].
    apply Forall_forall. intros c (i & -> & Hi)%list_elem_of_fmap. simpl.
    apply elem_of_seq in Hi.
    destruct (lookup_lt_is_Some_2 (tbl_Indexes d) i) as [x Hx]; [lia|].
    exists x. by rewrite Hx.
Qed.

End Returns.

(** X21.  [selectIndex] returns whenever the table-key encoder accepts
    every value, [sort.Sort] keeps its contract, and the secondary index a
    scan names, if it names one, is an index of the table: under these
    conditions no step of the analysis, of the ranking or of the key
    construction panics. *)
Theorem selectIndex_returns `{Collaborators} (s : scanNode) :
  SortContract ->
  (forall key d, is_Some (encodeTableKey key (Some d))) ->
  (forall d, s_desc s = Some d -> isSecondaryIndex s = true ->
     exists idx, deref d (s_index s) = Ok idx) ->
  exists s', selectIndex s = Ok s'.
Proof.
  intros Hsort Htotal Hexp. unfold selectIndex, rankedCandidates.
  destruct (s_desc s) as [d|] eqn:Hd; [|by eexists].
  destruct (filter s) as [f|] eqn:Hf; [|by eexists].
  pose proof (analyzeExpr_fine ∅ f wfMap_empty) as Hfine.
  destruct (analyzeExpr ∅ f) as [m|p]; simpl in Hfine.
  2:{ destruct Hfine as (_ & d0 & Hd0). destruct (Htotal [] d0) as [k Hk]. congruence. }
  simpl.
  pose proof (candidatesOf_deref s d (Hexp d eq_refl)) as Hcands.
  destruct (analyzeAll_returns (candidatesOf s d) (qvals s) m Hcands) as [analysed Ha].
  rewrite Ha. simpl.
  destruct (Hsort indexInfo Less analysed Less_irrefl Less_trans Less_neg_trans)
    as [Hperm _].
  apply analyzeAll_Forall2 in Ha.
  destruct (sort_Sort indexInfo Less analysed) as [|c0 rest] eqn:Hs.
  { apply Permutation_nil_r in Hperm. subst analysed.
    apply Forall2_length in Ha. unfold candidatesOf in Ha.
    destruct (isSecondaryIndex s); simpl in Ha; lia. }
  assert (c0 ∈ analysed) as Hin by (rewrite Hperm; left).
  apply list_elem_of_lookup in Hin as [j Hj].
  destruct (Forall2_lookup_r _ _ _ _ _ Ha Hj) as (c & Hc & Hc0).
  apply list_elem_of_lookup_2 in Hc.
  rewrite Forall_forall in Hcands. destruct (Hcands c Hc) as [idx Hidx].
  pose proof (analyzeRanges_index _ _ _ _ Hc0) as [Hdc Hic].
  unfold makeStartKey, makeEndKey. rewrite Hdc, Hic, Hidx. simpl.
  destruct (makeStartKey_loop_returns Htotal (v_start c0)
              (MakeIndexKeyPrefix (tbl_ID (desc c)) (idx_ID idx))) as [sk ->].
  destruct (makeEndKey_loop_returns Htotal (v_end c0)
              (MakeIndexKeyPrefix (tbl_ID (desc c)) (idx_ID idx)) false) as [[ek lt] ->].
  simpl. destruct lt; simpl; by eexists.
Qed.

Lemma insertion_sort_keeps_contract `{Collaborators} :
  (forall (A : Type) (less : A -> A -> bool) (l : list A),
     sort_Sort A less l = Model.insertion_sort A less l) ->
  SortContract.
Proof.
  intros Hsort A less l Hirr Htrans _. rewrite Hsort. split.
  - apply insertion_sort_Permutation.
  - intros i j x y Hij Hx Hy.
    by apply (StronglySorted_lookup (fun a b => less b a = false) _ i j x y
                (insertion_sort_StronglySorted less Hirr Htrans l)).
Qed.

(** ** The sort interface of the candidates *)

(** [indexInfoByCost.Len]. *)
Definition Len `{Collaborators} (v : list indexInfo) : Z := len v.

(** [indexInfoByCost.Swap], [v[i], v[j] = v[j], v[i]]: both elements are
    read, which panics when one is not there, and then written. *)
Definition Swap `{Collaborators} (v : list indexInfo) (i j : nat)
    : result (list indexInfo) :=
  match v !! i, v !! j with
  | Some a, Some b => Ok (<[j := a]> (<[i := b]> v))
  | _, _ => Panic IndexOutOfRange
  end.

Section SortInterface.
Context `{Collaborators}.

Lemma swapped_lookup (v : list indexInfo) (i j k : nat) (a b : indexInfo) :
  v !! i = Some a -> v !! j = Some b ->
  <[j := a]> (<[i := b]> v) !! k =
    if decide (k = j) then Some a else if decide (k = i) then Some b else v !! k.
Proof.
  intros Hi Hj. apply lookup_lt_Some in Hi as Hil. apply lookup_lt_Some in Hj as Hjl.
  destruct (decide (k = j)) as [->|Hkj].
  - apply list_lookup_insert_eq. by rewrite length_insert.
  - rewrite list_lookup_insert_ne by done.
    destruct (decide (k = i)) as [->|Hki].
    + by apply list_lookup_insert_eq.
    + by rewrite list_lookup_insert_ne.
Qed.

Lemma Swap_Ok (v : list indexInfo) (i j : nat) (a b : indexInfo) :
  v !! i = Some a -> v !! j = Some b ->
  exists v', Swap v i j = Ok v' /\
    length v' = length v /\ v' !! i = Some b /\ v' !! j = Some a /\
    (forall k, k <> i -> k <> j -> v' !! k = v !! k).
Proof.
  intros Hi Hj. unfold Swap. rewrite Hi, Hj. eexists. split; [done|].
  split_and!.
  - by rewrite !length_insert.
  - rewrite (swapped_lookup v i j i a b Hi Hj).
    case_decide as E; [subst; congruence|]. by rewrite decide_True.
  - rewrite (swapped_lookup v i j j a b Hi Hj). by rewrite decide_True.
  - intros k Hki Hkj. rewrite (swapped_lookup v i j k a b Hi Hj).
    by rewrite !decide_False.
Qed.

End SortInterface.

(** X22.  [indexInfoByCost] is a lawful [sort.Interface].  [Less] is a
    strict weak order on the candidates' costs.  [Swap(i, j)] on two
    positions of the slice returns a slice of the same [Len] in which the
    two elements have changed places and every other element is where it
    was, so the result is a permutation, and swapping again restores the
    slice; on a position outside the slice it panics and writes nothing. *)
Theorem candidates_are_a_lawful_sort_interface `{Collaborators}
    (v : list indexInfo) (i j : nat) :
  ((forall a, Less a a = false) /\
   (forall a b c, Less a b = true -> Less b c = true -> Less a c = true) /\
   (forall a b c, Less a b = false -> Less b c = false -> Less a c = false)) /\
  (((i < length v)%nat /\ (j < length v)%nat) ->
   exists v', Swap v i j = Ok v' /\
     Len v' = Len v /\ v' !! i = v !! j /\ v' !! j = v !! i /\
     (forall k, k <> i -> k <> j -> v' !! k = v !! k) /\
     Permutation v v' /\
     Swap v' i j = Ok v) /\
  (~ ((i < length v)%nat /\ (j < length v)%nat) ->
   Swap v i j = Panic IndexOutOfRange).
Proof.
  split_and!.
  - apply Less_irrefl.
  - apply Less_trans.
  - apply Less_neg_trans.
  - intros [Hi Hj].
    destruct (lookup_lt_is_Some_2 v i Hi) as [a Ha].
    destruct (lookup_lt_is_Some_2 v j Hj) as [b Hb].
    destruct (Swap_Ok v i j a b Ha Hb) as (v' & Hv' & Hlen & Hvi & Hvj & Hrest).
    exists v'. split_and!; try done.
    + unfold Len, len. by rewrite Hlen.
    + congruence.
    + congruence.
    + apply Permutation_inj. split; [done|].
      exists (fun k => if decide (k = i) then j else if decide (k = j) then i else k).
      split.
      * intros x y. repeat case_decide; intros; subst; congruence.
      * intros k. repeat case_decide; subst; try congruence.
        symmetry. by apply Hrest.
    + destruct (Swap_Ok v' i j b a Hvi Hvj) as (v'' & Hv'' & Hlen' & Hvi' & Hvj' & Hrest').
      rewrite Hv''. f_equal. apply list_eq. intros k.
      destruct (decide (k = i)) as [->|Hki]; [congruence|].
      destruct (decide (k = j)) as [->|Hkj]; [congruence|].
      by rewrite Hrest', Hrest.
  - intros Hout. unfold Swap.
    destruct (v !! i) as [a|] eqn:Ha; [|done].
    destruct (v !! j) as [b|] eqn:Hb; [|done].
    exfalso. apply Hout. split; by eapply lookup_lt_Some.
Qed.

(** ** Candidates of equal cost *)

(** Insertion of [x] before the elements that are not less than it; the
    sort built on it leaves elements that compare equal in the order they
    had, where [Model.insertion_sort] reverses them. *)
Fixpoint insert_first {A} (less : A -> A -> bool) (x : A) (l : list A) : list A :=
  match l with
  | [] => [x]
  | y :: l' => if less y x then y :: insert_first less x l' else x :: l
  end.

Definition order_keeping_sort (A : Type) (less : A -> A -> bool) (l : list A) : list A :=
  foldr (insert_first less) [] l.

Section OrderKeepingSort.
Context {A : Type} (less : A -> A -> bool).
Hypothesis less_irrefl : forall x, less x x = false.
Hypothesis less_trans :
  forall x y z, less x y = true -> less y z = true -> less x z = true.
Hypothesis less_neg_trans :
  forall x y z, less x y = false -> less y z = false -> less x z = false.

Lemma insert_first_Permutation (x : A) (l : list A) :
  Permutation (x :: l) (insert_first less x l).
Proof.
  induction l as [|y l IH]; simpl; [done|].
  destruct (less y x); [|done]. rewrite <- IH. apply perm_swap.
Qed.

Lemma order_keeping_sort_Permutation (l : list A) :
  Permutation l (order_keeping_sort A less l).
Proof.
  unfold order_keeping_sort. induction l as [|x l IH]; simpl; [done|].
  rewrite <- insert_first_Permutation. by constructor.
Qed.

Lemma insert_first_StronglySorted (x : A) (l : list A) :
  StronglySorted (fun a b => less b a = false) l ->
  StronglySorted (fun a b => less b a = false) (insert_first less x l).
Proof.
  induction 1 as [|y l Hl IH Hy]; simpl.
  - repeat constructor.
  - destruct (less y x) eqn:Hyx.
    + constructor; [done|]. rewrite <- insert_first_Permutation. constructor; [|done].
      destruct (less x y) eqn:Hxy; [|done].
      pose proof (less_irrefl x) as Hx. by rewrite (less_trans x y x Hxy Hyx) in Hx.
    + constructor; [by constructor|]. constructor; [done|].
      eapply Forall_impl; [exact Hy|]. simpl. intros z Hzy.
      by apply (less_neg_trans z y x).
Qed.

Lemma order_keeping_sort_StronglySorted (l : list A) :
  StronglySorted (fun a b => less b a = false) (order_keeping_sort A less l).
Proof.
  unfold order_keeping_sort. induction l as [|x l IH]; simpl; [constructor|].
  by apply insert_first_StronglySorted.
Qed.

End OrderKeepingSort.

Lemma order_keeping_sort_keeps_contract `{Collaborators} :
  (forall (A : Type) (less : A -> A -> bool) (l : list A),
     sort_Sort A less l = order_keeping_sort A less l) ->
  SortContract.
Proof.
  intros Hsort A less l Hirr Htrans Hneg. rewrite Hsort. split.
  - apply order_keeping_sort_Permutation.
  - intros i j x y Hij Hx Hy.
    by apply (StronglySorted_lookup (fun a b => less b a = false) _ i j x y
                (order_keeping_sort_StronglySorted less Hirr Htrans Hneg l)).
Qed.

(** A table whose one column is its primary key and has a secondary index
    as well, and the scan for [SELECT a ... WHERE a = 5]: both indexes
    cover the query, and both cost [1 * (2 / 2)]. *)
Definition idx_a : IndexDescriptor :=
  {| idx_Name := "idx_a"; idx_ID := 2; idx_Unique := false; idx_ColumnIDs := [1%N] |}.

Definition T_tie : TableDescriptor :=
  {| tbl_ID := 53; tbl_Columns := [Model.col_a];
     tbl_PrimaryIndex := Model.primary; tbl_Indexes := [idx_a] |}.

Definition scan_tie : @scanNode Model.values :=
  {| s_desc := Some T_tie; s_index := PrimaryIndexRef; isSecondaryIndex := false;
     filter := Some (ComparisonExpr parser.EQ Model.a (Model.lit 5));
     qvals := {[ 1%N := {| col := Model.col_a |} ]};
     startKey := []; endKey := [] |}.


(** * The planner on the model *)

Section OnTheModel.
#[local] Existing Instance Model.values.
#[local] Existing Instance Model.stable.

(** A bound on the model's integers. *)
Definition bound (z : Z) (o : parser.ComparisonOp) : qvalueInfo :=
  {| datum := Some z; op := o |}.

(** [> 1] met with [>= 1]: the values are equal, [intersect] keeps [> 1]
    and [union] returns [>= 1]. *)
Lemma intersect_never_widens_union_never_narrows_witness :
  (exists q', intersect (bound 1 parser.GT) (bound 1 parser.GE) true = Ok q' /\
     (forall x, admits q' x -> admits (bound 1 parser.GT) x) /\
     (Model.encodeInt 1 = Model.encodeInt 1 -> 
        isStrict (op q') = true)) /\
  (exists q', union (bound 1 parser.GT) (bound 1 parser.GE) true = Ok q' /\
     (forall x, admits (bound 1 parser.GT) x -> admits q' x) /\
     (Model.encodeInt 1 = Model.encodeInt 1 ->
        isStrict (op q') = false)).
Proof.
  edestruct (intersect_never_widens_union_never_narrows
               (bound 1 parser.GT) (bound 1 parser.GE) true 1 1)
    as [(q1 & H1 & A1 & E1) (q2 & H2 & A2 & E2)];
    [reflexivity|reflexivity|reflexivity|reflexivity
    |vm_compute; reflexivity|vm_compute; reflexivity|].
  split.
  - exists q1. split_and!; [done|done|]. intros _. by destruct (E1 eq_refl) as [_ ->].
  - exists q2. split_and!; [done|done|]. intros _. by destruct (E2 eq_refl) as [_ ->].
Defined.

(** The filter [a <= 5] leaves column [a] with an entry that has no lower
    bound; [makeStartInfo] on the primary index still appends one element,
    the empty bound. *)
Lemma column_without_lower_bound_contributes :
  exists m r,
    analyzeExpr ∅ (ComparisonExpr parser.LE Model.a (Model.lit 5)) = Ok m /\
    m !! 1%N = Some r /\
    datum (start r) = None /\
    makeStartInfo_loop m (idx_ColumnIDs Model.primary) [] = [qvalueInfo_zero] /\
    length (makeStartInfo_loop m (idx_ColumnIDs Model.primary) []) = 1%nat.
Proof.
  eexists _, _. split_and!; vm_compute; reflexivity.
Qed.

(** The scan of [T] for [SELECT b ... WHERE b = 5]. *)
Definition scan_b_eq_5 : scanNode :=
  {| s_desc := Some Model.T; s_index := PrimaryIndexRef; isSecondaryIndex := false;
     filter := Some (ComparisonExpr parser.EQ Model.b (Model.lit 5));
     qvals := {[ 2%N := {| col := Model.col_b |} ]};
     startKey := []; endKey := [] |}.

(** The range table of [b = 5]. *)
Definition ranges_b_eq_5 : qvalueRangeMap :=
  {[ 2%N := {| start := bound 5 parser.GE; end_ := bound 5 parser.LE |} ]}.


(** [idx_b] covers a query that reads column [b] only. *)
Lemma covering_index_rule_witness :
  exists b, isCoveringIndex (newIndexInfo Model.T (IndexesRef 0))
              (qvals scan_b_eq_5) = Ok b /\
    (b = true <->
     IndexesRef 0 = PrimaryIndexRef \/
     forall colID, is_Some (qvals scan_b_eq_5 !! colID) ->
       containsColumnID Model.idx_b colID = true \/
       (idx_Unique Model.idx_b = false /\
        containsColumnID Model.primary colID = true)).
Proof.
  exact (covering_index_rule (newIndexInfo Model.T (IndexesRef 0))
           (qvals scan_b_eq_5) Model.idx_b eq_refl).
Defined.

(** [selectIndex] on [SELECT b ... WHERE b = 5]: the committed candidate
    is one of the analysed candidates and none is cheaper. *)
Lemma selectIndex_commits_a_cheapest_candidate_witness :
  exists s', selectIndex scan_b_eq_5 = Ok s' /\
    exists m analysed c0,
      analyzeExpr ∅ (ComparisonExpr parser.EQ Model.b (Model.lit 5)) = Ok m /\
      analyzeAll (candidatesOf scan_b_eq_5 Model.T) (qvals scan_b_eq_5) m = Ok analysed /\
      c0 ∈ analysed /\
      (forall c, c ∈ analysed -> (cost c0 <= cost c)%Q) /\
      s_index s' = index c0.
Proof.
  assert (exists s', selectIndex scan_b_eq_5 = Ok s') as [s' Hsel].
  { eexists. vm_compute. reflexivity. }
  exists s'. split; [exact Hsel|].
  destruct (selectIndex_commits_a_cheapest_candidate scan_b_eq_5 s' Model.T
              (ComparisonExpr parser.EQ Model.b (Model.lit 5))
              insertion_sort_contract eq_refl eq_refl Hsel)
    as (m & analysed & c0 & Hm & Ha & Hin & Hleast & Hidx & _).
  exists m, analysed, c0. by split_and!.
Defined.

(** The scan of [T] through [idx_b], named in the query, for
    [SELECT b ... WHERE b = 5]. *)
Definition scan_through_idx_b : scanNode :=
  {| s_desc := Some Model.T; s_index := IndexesRef 0; isSecondaryIndex := true;
     filter := Some (ComparisonExpr parser.EQ Model.b (Model.lit 5));
     qvals := {[ 2%N := {| col := Model.col_b |} ]};
     startKey := []; endKey := [] |}.

Lemma explicit_secondary_index_is_committed_witness :
  exists s', selectIndex scan_through_idx_b = Ok s' /\
    s_index s' = IndexesRef 0 /\ isSecondaryIndex s' = true.
Proof.
  assert (exists s', selectIndex scan_through_idx_b = Ok s') as [s' Hsel].
  { eexists. vm_compute. reflexivity. }
  exists s'. split; [exact Hsel|].
  destruct (explicit_secondary_index_is_committed scan_through_idx_b s'
              insertion_sort_contract eq_refl Hsel) as (Hi & _ & _ & _ & Hflag).
  split; [exact Hi|]. rewrite Hflag; [done|by eexists|by eexists].
Defined.

(** A table whose index on [b] is unique, and a scan through that index
    that reads column [a]: the index does not cover it. *)
Definition idx_b_unique : IndexDescriptor :=
  {| idx_Name := "idx_b_unique"; idx_ID := 3; idx_Unique := true;
     idx_ColumnIDs := [2%N] |}.

Definition T_unique : TableDescriptor :=
  {| tbl_ID := 52; tbl_Columns := [Model.col_a; Model.col_b];
     tbl_PrimaryIndex := Model.primary; tbl_Indexes := [idx_b_unique] |}.

Definition scan_through_unique : scanNode :=
  {| s_desc := Some T_unique; s_index := IndexesRef 0; isSecondaryIndex := true;
     filter := Some (ComparisonExpr parser.GT Model.a (Model.lit 10));
     qvals := {[ 1%N := {| col := Model.col_a |} ]};
     startKey := []; endKey := [] |}.

Lemma explicit_non_covering_index_scans_the_whole_index_witness :
  selectIndex scan_through_unique =
    Ok {| s_desc := Some T_unique; s_index := IndexesRef 0; isSecondaryIndex := true;
          filter := filter scan_through_unique; qvals := qvals scan_through_unique;
          startKey := Model.keyPrefix 52 3;
          endKey := Model.prefixEnd (Model.keyPrefix 52 3) |}.
Proof.
  assert (exists m, analyzeExpr ∅ (ComparisonExpr parser.GT Model.a (Model.lit 10)) = Ok m)
    as [m Hm].
  { eexists. vm_compute. reflexivity. }
  assert (isCoveringIndex (newIndexInfo T_unique (IndexesRef 0))
            (qvals scan_through_unique) = Ok false) as Hcov.
  { vm_compute. reflexivity. }
  exact (explicit_non_covering_index_scans_the_whole_index scan_through_unique
           T_unique _ idx_b_unique m insertion_sort_contract
           eq_refl eq_refl eq_refl eq_refl Hcov Hm).
Defined.

(** Without a named index, [SELECT b ... WHERE b = 5] commits an index
    that covers column [b]. *)
Lemma selectIndex_commits_a_covering_index_witness :
  exists s', selectIndex scan_b_eq_5 = Ok s' /\
    isCoveringIndex (newIndexInfo Model.T (s_index s')) (qvals scan_b_eq_5) = Ok true.
Proof.
  assert (exists s', selectIndex scan_b_eq_5 = Ok s') as [s' Hsel].
  { eexists. vm_compute. reflexivity. }
  exists s'. split; [exact Hsel|].
  apply (selectIndex_commits_a_covering_index scan_b_eq_5 s' Model.T
           (ComparisonExpr parser.EQ Model.b (Model.lit 5))
           insertion_sort_contract eq_refl eq_refl eq_refl).
  - vm_compute. reflexivity.
  - vm_compute. reflexivity.
  - exact Hsel.
Defined.

(** [a > 10 OR a >= 20] on the empty table: both disjuncts bound column [a]
    from below only. *)
Lemma or_merge_rule_witness :
  exists left_ right_,
    analyzeExpr ∅ (ComparisonExpr parser.GT Model.a (Model.lit 10)) = Ok left_ /\
    analyzeExpr ∅ (ComparisonExpr parser.GE Model.a (Model.lit 20)) = Ok right_ /\
    match analyzeExpr ∅ (OrExpr (ComparisonExpr parser.GT Model.a (Model.lit 10))
                                (ComparisonExpr parser.GE Model.a (Model.lit 20))) with
    | Ok m' =>
        forall id,
          match left_ !! id, right_ !! id with
          | Some lRange, Some rRange =>
              exists s e,
                (if negb (isNil (datum (start lRange))) &&
                    negb (isNil (datum (start rRange)))
                 then union (start lRange) (start rRange) true
                 else Ok qvalueInfo_zero) = Ok s /\
                (if negb (isNil (datum (end_ lRange))) &&
                    negb (isNil (datum (end_ rRange)))
                 then union (end_ lRange) (end_ rRange) false
                 else Ok qvalueInfo_zero) = Ok e /\
                m' !! id =
                  if negb (isNil (datum s)) || negb (isNil (datum e))
                  then Some {| start := s; end_ := e |}
                  else (∅ : qvalueRangeMap) !! id
          | _, _ => m' !! id = (∅ : qvalueRangeMap) !! id
          end
    | Panic p =>
        exists id lRange rRange,
          left_ !! id = Some lRange /\ right_ !! id = Some rRange /\
          (union (start lRange) (start rRange) true = Panic p \/
           union (end_ lRange) (end_ rRange) false = Panic p)
    end.
Proof.
  assert (exists left_,
            analyzeExpr ∅ (ComparisonExpr parser.GT Model.a (Model.lit 10)) = Ok left_)
    as [left_ Hl].
  { eexists. vm_compute. reflexivity. }
  assert (exists right_,
            analyzeExpr ∅ (ComparisonExpr parser.GE Model.a (Model.lit 20)) = Ok right_)
    as [right_ Hr].
  { eexists. vm_compute. reflexivity. }
  exists left_, right_. split; [exact Hl|]. split; [exact Hr|].
  exact (or_merge_rule ∅ _ _ left_ right_ Hl Hr).
Defined.

(** The filter [a > 10 AND a < 20], analysed on the empty table. *)
Definition a_between_10_and_20 : Expr :=
  AndExpr (ComparisonExpr parser.GT Model.a (Model.lit 10))
          (ComparisonExpr parser.LT Model.a (Model.lit 20)).

Lemma analyzer_keeps_bounds_well_formed_witness :
  match analyzeExpr ∅ a_between_10_and_20 with
  | Ok m' => forall k r, m' !! k = Some r -> wfRange r = true
  | Panic p => p = EncodeError /\ exists d, encodeTableKey [] (Some d) = None
  end.
Proof.
  apply (analyzer_keeps_bounds_well_formed ∅ a_between_10_and_20).
  intros k r Hk. rewrite lookup_empty in Hk. discriminate.
Defined.

Lemma analyzer_touches_only_compared_columns_witness :
  exists m', analyzeExpr ∅ a_between_10_and_20 = Ok m' /\
    (forall k, k ∉ comparedColumns a_between_10_and_20 ->
       m' !! k = (∅ : qvalueRangeMap) !! k) /\
    (forall k, is_Some ((∅ : qvalueRangeMap) !! k) -> is_Some (m' !! k)).
Proof.
  assert (exists m', analyzeExpr ∅ a_between_10_and_20 = Ok m') as [m' Hm'].
  { eexists. vm_compute. reflexivity. }
  exists m'. split; [exact Hm'|].
  exact (analyzer_touches_only_compared_columns ∅ m' a_between_10_and_20 Hm').
Defined.


(** [> 1] tightened by [>= 2], twice. *)
Lemma same_bound_twice_changes_nothing_witness :
  intersect (bound 1 parser.GT) (bound 2 parser.GE) true = Ok (bound 2 parser.GE) /\
  intersect (bound 2 parser.GE) (bound 2 parser.GE) true = Ok (bound 2 parser.GE).
Proof.
  assert (intersect (bound 1 parser.GT) (bound 2 parser.GE) true = Ok (bound 2 parser.GE))
    as Hfirst.
  { vm_compute. reflexivity. }
  split; [exact Hfirst|].
  apply (same_bound_twice_changes_nothing (bound 1 parser.GT) (bound 2 parser.GE)
           (bound 2 parser.GE) true); [|exact Hfirst].
  eexists. vm_compute. reflexivity.
Defined.

(** [a > 10 AND a < 20] on the primary index of [T]: the scan starts at
    the key after the encoding of 10 and ends at the encoding of 20. *)
Lemma column_between_two_constants_witness :
  exists m v',
    analyzeExpr ∅ a_between_10_and_20 = Ok m /\
    analyzeRanges (newIndexInfo Model.T PrimaryIndexRef)
      {[ 1%N := {| col := Model.col_a |} ]} m = Ok v' /\
    v_start v' = [bound 10 parser.GT] /\
    v_end v' = [bound 20 parser.LT] /\
    (exists k10, Model.encodeInt 10 = Some k10 /\
       makeStartKey v' = Ok (Model.next (Model.keyPrefix 51 1 ++ k10))) /\
    (exists k20, Model.encodeInt 20 = Some k20 /\
       makeEndKey v' = Ok (Model.keyPrefix 51 1 ++ k20)).
Proof.
  destruct (column_between_two_constants (newIndexInfo Model.T PrimaryIndexRef)
              {[ 1%N := {| col := Model.col_a |} ]} {| col := Model.col_a |}
              (Model.lit 10) (Model.lit 20) 10 20 Model.primary [])
    as (m & v' & Hm & Hv & Hs & He & Hsk & Hek);
    [vm_compute; reflexivity|vm_compute; reflexivity|reflexivity|reflexivity
    |reflexivity|reflexivity|reflexivity|reflexivity|reflexivity|].
  exists m, v'. split_and!; [exact Hm|exact Hv|exact Hs|exact He| |].
  - eexists. split; [vm_compute; reflexivity|]. rewrite Hsk. vm_compute. reflexivity.
  - eexists. split; [vm_compute; reflexivity|]. rewrite Hek. vm_compute. reflexivity.
Defined.


(** The scan of [T] for [SELECT a ... WHERE a > 10 AND a < 20], and the row
    with [a = 15]. *)
Definition scan_a_between : scanNode :=
  {| s_desc := Some Model.T; s_index := PrimaryIndexRef; isSecondaryIndex := false;
     filter := Some a_between_10_and_20;
     qvals := {[ 1%N := {| col := Model.col_a |} ]};
     startKey := []; endKey := [] |}.


(** [> 1] and [>= 2]: both calls return, and the returned bounds are the
    intersection and the union. *)
Lemma intersect_and_union_are_exact_witness :
  (exists q', intersect (bound 1 parser.GT) (bound 2 parser.GE) true = Ok q' /\
     forall x, admits q' x <->
               admits (bound 1 parser.GT) x /\ admits (bound 2 parser.GE) x) /\
  (exists q', union (bound 1 parser.GT) (bound 2 parser.GE) true = Ok q' /\
     forall x, admits q' x <->
               admits (bound 1 parser.GT) x \/ admits (bound 2 parser.GE) x).
Proof.
  eapply (intersect_and_union_are_exact (bound 1 parser.GT) (bound 2 parser.GE) true 1 2);
    [reflexivity|reflexivity|reflexivity|reflexivity
    |vm_compute; reflexivity|vm_compute; reflexivity].
Defined.

(** [SELECT b ... WHERE b LIKE 5]: a filter the analyzer reads no bound
    from; the scan of [T] then runs over the whole of the committed
    index. *)
Definition scan_unbounded : scanNode :=
  {| s_desc := Some Model.T; s_index := PrimaryIndexRef; isSecondaryIndex := false;
     filter := Some (ComparisonExpr parser.Like Model.b (Model.lit 5));
     qvals := {[ 2%N := {| col := Model.col_b |} ]};
     startKey := []; endKey := [] |}.

Lemma unbounded_leading_column_scans_the_whole_index_witness :
  exists s' idx,
    selectIndex scan_unbounded = Ok s' /\
    deref Model.T (s_index s') = Ok idx /\
    startKey s' = Model.keyPrefix 51 (idx_ID idx) /\
    endKey s' = Model.prefixEnd (Model.keyPrefix 51 (idx_ID idx)).
Proof.
  eexists _, _. split; [vm_compute; reflexivity|].
  split; [vm_compute; reflexivity|].
  eapply (unbounded_leading_column_scans_the_whole_index scan_unbounded _ Model.T
            (ComparisonExpr parser.Like Model.b (Model.lit 5)) ∅ _
            insertion_sort_contract eq_refl eq_refl).
  - vm_compute. reflexivity.
  - vm_compute. reflexivity.
  - vm_compute. reflexivity.
  - intros c _. apply lookup_empty.
Defined.

End OnTheModel.

(** * A model whose encoder accepts every value

    Every datum is one byte, encoded as itself; the other collaborators are
    those of the first model. *)

Module ByteModel.

#[local] Instance byteValues : Values := {| Datum := byte; Other := byte |}.

Definition encodeByte (key : list byte) (v : option byte) : option (list byte) :=
  match v with
  | Some x => Some (key ++ [x])
  | None => None
  end.

Definition evalByte (e : Expr) : option byte :=
  match e with
  | OtherExpr x => Some x
  | _ => None
  end.

Fixpoint subexpressions (e : Expr) : list Expr :=
  e :: match e with
       | AndExpr l r | OrExpr l r | ComparisonExpr _ l r =>
           subexpressions l ++ subexpressions r
       | NotExpr e | ParenExpr e => subexpressions e
       | RangeCond _ l f t => subexpressions l ++ subexpressions f ++ subexpressions t
       | _ => []
       end.

Definition isColumn (e : Expr) : bool :=
  match e with
  | Qvalue _ => true
  | _ => false
  end.

#[local] Instance byteCollaborators : Collaborators :=
  {| encodeTableKey := encodeByte;
     EvalExpr := evalByte;
     convertDatum := fun _ _ => true;
     WalkExpr := subexpressions;
     isDReference := isColumn;
     MakeIndexKeyPrefix := Model.keyPrefix;
     Key_Next := Model.next;
     Key_PrefixEnd := Model.prefixEnd;
     sort_Sort := Model.insertion_sort |}.

(** The scan of [T] for [SELECT a ... WHERE a > 'A']. *)
Definition scan_a_above : scanNode :=
  {| s_desc := Some Model.T; s_index := PrimaryIndexRef; isSecondaryIndex := false;
     filter := Some (ComparisonExpr parser.GT (Qvalue {| col := Model.col_a |})
                       (OtherExpr x41));
     qvals := {[ 1%N := {| col := Model.col_a |} ]};
     startKey := []; endKey := [] |}.

Lemma selectIndex_returns_witness : exists s', selectIndex scan_a_above = Ok s'.
Proof.
  apply (selectIndex_returns scan_a_above).
  - apply insertion_sort_keeps_contract. reflexivity.
  - intros key d. by eexists.
  - intros d _ Hsec. discriminate Hsec.
Defined.

End ByteModel.
